(** * biome-config-generator: a shallow embedding of [main.go]

    The program walks a directory tree, records the directories that hold
    ESLint or Prettier configuration files, runs the Biome migration tool
    in each of them and finally patches the resulting [biome.json].

    The embedding follows the source function by function:
    - the static tables [eslintConfigFiles] and [prettierConfigFiles];
    - [Walk] and [walk], Go's [filepath.Walk] over a model of the file tree,
      and [findConfigs] with its callback [visit] (lines 160-200);
    - [patchDocument], the in-memory part of [patchBiomeConfig]
      (lines 231-249), and [patchBiomeConfig] itself (lines 220-257);
    - [main] after [flag.Parse] (lines 62-158), over an abstract host.

    Paths are kept as lists of components ([/a/b] is [["a"; "b"]]), file
    contents as strings, and every call the program makes to the operating
    system is recorded in a log of events. *)

From stdpp Require Import gmap strings list fin_maps.

Set Warnings "-register-all".
Open Scope string_scope.
Open Scope list_scope.

(** ** Go values used by the program *)

(** A Go [error] value.  The program only ever asks one question of an
    error, [os.IsPermission], and otherwise prints it. *)
Record goerror := GoError { isPermission : bool; errorText : string }.

(** What [json.Unmarshal] stores in an [any]: [nil], [bool], [float64]
    (carried here by its IEEE-754 bit pattern), [string], [[]any] and
    [map[string]any].  Go maps have no key order and no duplicate keys, hence
    [gmap]. *)
Inductive json :=
| JNull
| JBool (b : bool)
| JNumber (bits : Z)
| JString (s : string)
| JArray (items : list json)
| JObject (fields : gmap string json).

(** ** The patcher, in memory (main.go, lines 231-249) *)

(** [formatter["formatWithErrors"] = true] when [config["formatter"]] is a
    [map[string]any]; otherwise [config["formatter"]] is assigned a fresh
    map.  The nested map is shared with [config], so the mutation of
    [formatter] is visible through [config]. *)
Definition patchFormatter (config : gmap string json) : gmap string json :=
  match config !! "formatter" with
  | Some (JObject formatter) =>
      <["formatter" := JObject (<["formatWithErrors" := JBool true]> formatter)]> config
  | _ =>
      <["formatter" := JObject {["formatWithErrors" := JBool true]}]> config
  end.

(** [js["parser"] = map[string]any{...}] when [config["javascript"]] is a
    [map[string]any]; otherwise [config["javascript"]] is assigned a fresh
    two-level map. *)
Definition patchJavascript (config : gmap string json) : gmap string json :=
  match config !! "javascript" with
  | Some (JObject js) =>
      <["javascript" :=
          JObject (<["parser" := JObject {["unsafeParameterDecoratorsEnabled" := JBool true]}]> js)]>
        config
  | _ =>
      <["javascript" :=
          JObject {["parser" := JObject {["unsafeParameterDecoratorsEnabled" := JBool true]}]}]>
        config
  end.

Definition patchDocument (config : gmap string json) : gmap string json :=
  patchJavascript (patchFormatter config).

(** The value of [section.key] in a document, when [section] is an object. *)
Definition field (section key : string) (config : gmap string json) : option json :=
  match config !! section with
  | Some (JObject fields) => fields !! key
  | _ => None
  end.

(** The value of [javascript.parser.key]. *)
Definition parserField (key : string) (config : gmap string json) : option json :=
  match field "javascript" "parser" config with
  | Some (JObject parser) => parser !! key
  | _ => None
  end.

(** ** The static tables (main.go, lines 14-49) *)

Definition eslintConfigFiles : list string :=
  [ ".eslintrc.json"; ".eslintrc.js"; ".eslintrc.cjs"; ".eslintrc.yaml";
    ".eslintrc.yml"; ".eslintrc"; "eslint.config.js"; "eslint.config.mjs";
    "eslint.config.cjs" ].

Definition prettierConfigFiles : list string :=
  [ ".prettierrc"; ".prettierrc.json"; ".prettierrc.yml"; ".prettierrc.yaml";
    ".prettierrc.json5"; ".prettierrc.js"; ".prettierrc.cjs"; ".prettierrc.mjs";
    ".prettierrc.toml"; "prettier.config.js"; "prettier.config.cjs";
    "prettier.config.mjs" ].

(** A double quote and a line feed, to write the text of the skeleton. *)
Definition dquote : string := String (Ascii.ascii_of_nat 34) EmptyString.
Definition newline : string := String (Ascii.ascii_of_nat 10) EmptyString.

Definition minimalBiomeConfig : string :=
  String.concat newline
    [ "{";
      "  " +:+ dquote +:+ "linter" +:+ dquote +:+ ": {";
      "    " +:+ dquote +:+ "enabled" +:+ dquote +:+ ": true,";
      "    " +:+ dquote +:+ "rules" +:+ dquote +:+ ": {";
      "      " +:+ dquote +:+ "recommended" +:+ dquote +:+ ": true";
      "    }";
      "  }";
      "}";
      "" ].

(** [slices.Contains] on strings. *)
Fixpoint slicesContains (s : list string) (v : string) : bool :=
  match s with
  | [] => false
  | x :: rest => if String.eqb x v then true else slicesContains rest v
  end.

(** ** Paths *)

Abbreviation path := (list string).

Definition filepathJoin (p : path) (name : string) : path := p ++ [name].
Definition filepathDir (p : path) : path := removelast p.
(** [filepath.Base], which is also the [Name()] that [os.Lstat] reports. *)
Definition filepathBase (p : path) : string := List.last p "/".

(** ** The scanner (main.go, lines 51-55 and 160-200) *)

Record configLocation := ConfigLocation {
  dir : path;
  hasEslint : bool;
  hasPrettier : bool
}.

Record fileInfo := FileInfo { Name : string; IsDir : bool }.

(** What [filepath.Walk] can meet at a path: something that is not a
    directory, a directory (whose listing may fail to be read, and is then
    never looked at), or a name whose [lstat] fails. *)
Inductive node :=
| File
| Dir (readErr : option goerror) (entries : list (string * node))
| NoStat (statErr : goerror).

(** The [error] a [WalkFunc] returns: [nil], [filepath.SkipDir] or another
    error. *)
Inductive walkResult :=
| WalkNil
| SkipDir
| WalkErr (e : goerror).

(** Only for something that is not a directory does [walk] hand a [SkipDir]
    back to the loop of its parent as an error to return; for a directory,
    and for a name whose [lstat] failed, the loop goes on. *)
Definition returnsSkip (child : node) : bool :=
  match child with File => true | _ => false end.

(** The end of [filepath.Walk]: a [SkipDir] that reaches the top is not an
    error. *)
Definition walkError (err : walkResult) : option goerror :=
  match err with WalkErr e => Some e | _ => None end.

Section Walk.
Context {St : Type}.
Variable walkFn : path → option fileInfo → option goerror → St → St * walkResult.

(** [lstat] followed by [filepath.walk].  For a directory the listing is
    read first and [walkFn] is called once, with the error of that
    read. *)
Fixpoint walk (p : path) (n : node) (st : St) : St * walkResult :=
  match n with
  | NoStat e => walkFn p None (Some e) st
  | File => walkFn p (Some (FileInfo (filepathBase p) false)) None st
  | Dir readErr entries =>
      let '(st1, err1) := walkFn p (Some (FileInfo (filepathBase p) true)) readErr st in
      match readErr, err1 with
      | None, WalkNil =>
          (fix loop (names : list (string * node)) (st : St) : St * walkResult :=
             match names with
             | [] => (st, WalkNil)
             | (name, child) :: rest =>
                 let '(st', err) := walk (filepathJoin p name) child st in
                 match err with
                 | WalkNil => loop rest st'
                 | SkipDir => if returnsSkip child then (st', SkipDir) else loop rest st'
                 | WalkErr e => (st', WalkErr e)
                 end
             end) entries st1
      | _, _ => (st1, err1)
      end
  end.

(** The loop of [filepath.walk] over the names of a directory. *)
Fixpoint walkEntries (p : path) (names : list (string * node)) (st : St) : St * walkResult :=
  match names with
  | [] => (st, WalkNil)
  | (name, child) :: rest =>
      let '(st', err) := walk (filepathJoin p name) child st in
      match err with
      | WalkNil => walkEntries p rest st'
      | SkipDir => if returnsSkip child then (st', SkipDir) else walkEntries p rest st'
      | WalkErr e => (st', WalkErr e)
      end
  end.

(** [filepath.Walk]. *)
Definition Walk (root : path) (tree : node) (st : St) : St * option goerror :=
  let '(st', err) := walk root tree st in (st', walkError err).
End Walk.

Definition isPruned (name : string) : bool :=
  (name =? "node_modules") || (name =? ".git") || (name =? "dist")
  || (name =? "build") || (name =? ".devops").

(** Lines 183-186: create the record if there is none, then set the flag. *)
Definition markEslint (d : path) (locations : gmap path configLocation)
  : gmap path configLocation :=
  let locations :=
    match locations !! d with
    | None => <[d := ConfigLocation d false false]> locations
    | Some _ => locations
    end in
  alter (λ loc, ConfigLocation (dir loc) true (hasPrettier loc)) d locations.

(** Lines 190-193. *)
Definition markPrettier (d : path) (locations : gmap path configLocation)
  : gmap path configLocation :=
  let locations :=
    match locations !! d with
    | None => <[d := ConfigLocation d false false]> locations
    | Some _ => locations
    end in
  alter (λ loc, ConfigLocation (dir loc) (hasEslint loc) true) d locations.

(** The callback of [findConfigs] (lines 163-197).  [info] is only looked
    at when [err] is [nil], and is then never [nil]. *)
Definition visit (p : path) (info : option fileInfo) (err : option goerror)
    (locations : gmap path configLocation)
  : gmap path configLocation * walkResult :=
  match err with
  | Some e => if isPermission e then (locations, SkipDir) else (locations, WalkErr e)
  | None =>
      match info with
      | None => (locations, WalkNil)
      | Some info =>
          if IsDir info then
            if isPruned (Name info) then (locations, SkipDir) else (locations, WalkNil)
          else
            let fileName := Name info in
            let d := filepathDir p in
            let locations :=
              if slicesContains eslintConfigFiles fileName
              then markEslint d locations else locations in
            let locations :=
              if slicesContains prettierConfigFiles fileName
              then markPrettier d locations else locations in
            (locations, WalkNil)
      end
  end.

Definition findConfigs (root : path) (tree : node)
  : gmap path configLocation * option goerror :=
  Walk visit root tree ∅.

(** A callback that also keeps the list of the paths it was called on. *)
Definition traced {St : Type}
    (walkFn : path → option fileInfo → option goerror → St → St * walkResult)
    (p : path) (info : option fileInfo) (err : option goerror) (st : St * list path)
  : (St * list path) * walkResult :=
  let '(st', r) := walkFn p info err st.1 in ((st', st.2 ++ [p]), r).

(** The paths on which [findConfigs] calls its callback, in order. *)
Definition visitedPaths (root : path) (tree : node) : list path :=
  (Walk (traced visit) root tree (∅, [])).1.2.

(** The nodes found at the path [p ++ rel] when going down from the node
    [n] at [p] through directories that the scan enters: their listing is
    read and their name is not pruned.  Nothing is asked of the node
    found. *)
Fixpoint entered (p : path) (n : node) (rel : list string) {struct rel} : list node :=
  match rel with
  | [] => [n]
  | name :: rel' =>
      match n with
      | Dir None entries =>
          if isPruned (filepathBase p) then []
          else flat_map (λ e, if String.eqb e.1 name
                              then entered (filepathJoin p name) e.2 rel' else [])
                        entries
      | _ => []
      end
  end.

(** A node at which the scan meets an error that is not a permission
    error. *)
Definition failsHard (n : node) : bool :=
  match n with
  | NoStat e | Dir (Some e) _ => negb (isPermission e)
  | _ => false
  end.

(** The error met at a node, if any. *)
Definition errorAt (n : node) : option goerror :=
  match n with
  | NoStat e | Dir (Some e) _ => Some e
  | _ => None
  end.

(** The tree in which every node that fails with a permission error is an
    empty directory. *)
Fixpoint withoutForbidden (n : node) : node :=
  match n with
  | File => File
  | NoStat e => if isPermission e then Dir None [] else NoStat e
  | Dir (Some e) entries => if isPermission e then Dir None [] else Dir (Some e) entries
  | Dir None entries => Dir None (map (λ e, (e.1, withoutForbidden e.2)) entries)
  end.

(** The scan enters the directory at [root ++ rel] and finds there
    something called [name] that is not a directory. *)
Definition hasFile (root : path) (tree : node) (rel : list string) (name : string) : Prop :=
  File ∈ entered root tree (rel ++ [name]).

(** Some file that the scan reaches lies in the directory [d] and has its
    name in [names]. *)
Definition classifiedBy (names : list string) (root : path) (tree : node) (d : path)
  : Prop :=
  ∃ rel, File ∈ entered root tree rel
         ∧ filepathDir (root ++ rel) = d
         ∧ filepathBase (root ++ rel) ∈ names.

(** The linter flag, the formatter flag of the record of [d], false when
    there is no record. *)
Definition eslintAt (locations : gmap path configLocation) (d : path) : bool :=
  match locations !! d with Some loc => hasEslint loc | None => false end.
Definition prettierAt (locations : gmap path configLocation) (d : path) : bool :=
  match locations !! d with Some loc => hasPrettier loc | None => false end.

(** Every record sits under its own directory and has a flag set. *)
Definition wellFlagged (locations : gmap path configLocation) : Prop :=
  ∀ k loc, locations !! k = Some loc →
           dir loc = k ∧ hasEslint loc || hasPrettier loc = true.

(** How a flag moves over a part of the walk that goes from [st] to [st']
    with result [r], when [found] tells the directories in which that part
    of the walk has a matching file: the flag is only set where it was set
    or where such a file is found, it is never cleared, and unless the walk
    stops on an error it is set wherever such a file is found. *)
Definition tracks (flagAt : gmap path configLocation → path → bool)
    (found : path → Prop) (st st' : gmap path configLocation) (r : walkResult) : Prop :=
  (∀ d, flagAt st' d = true → flagAt st d = true ∨ found d)
  ∧ (∀ d, flagAt st d = true → flagAt st' d = true)
  ∧ ((∀ e, r ≠ WalkErr e) → ∀ d, found d → flagAt st' d = true).

(** ** The host: file system, subprocesses, standard output *)

(** The lines the program prints, by the statement that prints them. *)
Inductive message :=
| MsgUsage
| MsgResolveError (err : goerror)
| MsgScanError (err : goerror)
| MsgNoConfigs
| MsgFound (count : nat)
| MsgLocation (d : path) (flags : list string)
| MsgDryRunDir (d : path)
| MsgDryRunEslint
| MsgDryRunPrettier
| MsgMigrating (d : path)
| MsgCreateError (err : goerror)
| MsgEslintError (err : goerror)
| MsgEslintMigrated
| MsgPrettierError (err : goerror)
| MsgPrettierMigrated
| MsgPatchError (err : goerror)
| MsgCreated (p : path)
| MsgDone.

(** One entry of the log per call that leaves the program. *)
Inductive event :=
| EPrint (m : message)
| EWalk (root : path)
| EStat (p : path)
| EReadFile (p : path)
| EWriteFile (p : path) (data : string)
| ERemove (p : path)
| EExec (args : list string) (cwd : path).

(** What a run ends with: a value, or a Go run-time panic (which ends the
    process with exit status 2). *)
Inductive outcome (A : Type) :=
| Returned (a : A)
| Panicked (reason : string).
Arguments Returned {A} a.
Arguments Panicked {A} reason.

(** The operations the program calls and does not define.  [W] is the
    state of the machine (disk, processes); reads leave it as it is.
    [mapRange i m] is the order in which the [i]-th [range] statement over
    the map [m] yields its entries, which Go leaves open. *)
Class Host (W : Type) := {
  filepathAbs : string → W → goerror + path;
  hostTree : path → W → node;
  osStat : path → W → option goerror;
  osReadFile : path → W → goerror + string;
  osWriteFile : path → string → W → W * option goerror;
  osRemove : path → W → W * option goerror;
  cmdRun : list string → path → W → W * option goerror;
  jsonUnmarshal : string → goerror + option (gmap string json);
  jsonMarshalIndent : gmap string json → goerror + string;
  mapRange : nat → gmap path configLocation → list (path * configLocation);
  mapRange_perm : ∀ i m, mapRange i m ≡ₚ map_to_list m
}.

Section Program.
Context {W : Type} `{Host W}.

(** A computation: from a state of the machine to the new state, the log
    of what was called, and the outcome. *)
Definition Run (A : Type) : Type := W → W * list event * outcome A.

Definition runRet {A : Type} (a : A) : Run A := λ w, (w, [], Returned a).

Definition runBind {A B : Type} (m : Run A) (k : A → Run B) : Run B :=
  λ w,
    let '(w1, log1, r) := m w in
    match r with
    | Panicked reason => (w1, log1, Panicked reason)
    | Returned a => let '(w2, log2, r2) := k a w1 in (w2, log1 ++ log2, r2)
    end.

#[global] Instance run_mret : MRet Run := @runRet.
#[global] Instance run_mbind : MBind Run := λ A B k m, runBind m k.

Definition panic {A : Type} (reason : string) : Run A :=
  λ w, (w, [], Panicked reason).
Definition print (m : message) : Run unit :=
  λ w, (w, [EPrint m], Returned tt).
Definition resolve (input : string) : Run (goerror + path) :=
  λ w, (w, [], Returned (filepathAbs input w)).
Definition scan (root : path) : Run (gmap path configLocation * option goerror) :=
  λ w, (w, [EWalk root], Returned (findConfigs root (hostTree root w))).
Definition stat (p : path) : Run (option goerror) :=
  λ w, (w, [EStat p], Returned (osStat p w)).
Definition readFile (p : path) : Run (goerror + string) :=
  λ w, (w, [EReadFile p], Returned (osReadFile p w)).
Definition writeFile (p : path) (data : string) : Run (option goerror) :=
  λ w, let '(w', err) := osWriteFile p data w in (w', [EWriteFile p data], Returned err).
Definition remove (p : path) : Run (option goerror) :=
  λ w, let '(w', err) := osRemove p w in (w', [ERemove p], Returned err).
Definition run (args : list string) (cwd : path) : Run (option goerror) :=
  λ w, let '(w', err) := cmdRun args cwd w in (w', [EExec args cwd], Returned err).

(** A [for ... range] loop whose body has no [break]. *)
Fixpoint forEach {A : Type} (items : list A) (body : A → Run unit) : Run unit :=
  match items with
  | [] => mret tt
  | x :: rest => body x;; forEach rest body
  end.

(** Lines 202-218. *)
Definition migrateEslintConfig (d : path) : Run (option goerror) :=
  run ["npx"; "@biomejs/biome"; "migrate"; "eslint"; "--write"] d.
Definition migratePrettierConfig (d : path) : Run (option goerror) :=
  run ["npx"; "@biomejs/biome"; "migrate"; "prettier"; "--write"] d.

(** Lines 220-257.  [json.Unmarshal] of the text [null] leaves [config] a
    [nil] map and reports no error; the test at line 231 then fails and
    the assignment at line 234 panics. *)
Definition patchBiomeConfig (p : path) : Run (option goerror) :=
  data ← readFile p;
  match data with
  | inl err => mret (Some err)
  | inr data =>
      match jsonUnmarshal data with
      | inl err => mret (Some err)
      | inr None => panic "assignment to entry in nil map"
      | inr (Some config) =>
          match jsonMarshalIndent (patchDocument config) with
          | inl err => mret (Some err)
          | inr output => writeFile p output
          end
      end
  end.

(** Lines 86-93. *)
Definition printLocation (entry : path * configLocation) : Run unit :=
  let flags := [] in
  let flags := if hasEslint entry.2 then flags ++ ["eslint"] else flags in
  let flags := if hasPrettier entry.2 then flags ++ ["prettier"] else flags in
  print (MsgLocation entry.1 flags).

(** Lines 108-152: the body of the second loop when [dryRun] is false. *)
Definition migrateLocation (d : path) (loc : configLocation) : Run unit :=
  print (MsgMigrating d);;
  let biomeConfigPath := filepathJoin d "biome.json" in
  statErr ← stat biomeConfigPath;
  let existingBiome := match statErr with None => true | Some _ => false end in
  created ← (if existingBiome then mret None
             else writeFile biomeConfigPath minimalBiomeConfig);
  match created with
  | Some err => print (MsgCreateError err)
  | None =>
      let migrationFailed := false in
      migrationFailed ←
        (if hasEslint loc then
           err ← migrateEslintConfig d;
           match err with
           | Some err => print (MsgEslintError err);; mret true
           | None => print MsgEslintMigrated;; mret migrationFailed
           end
         else mret migrationFailed);
      migrationFailed ←
        (if hasPrettier loc then
           err ← migratePrettierConfig d;
           match err with
           | Some err => print (MsgPrettierError err);; mret true
           | None => print MsgPrettierMigrated;; mret migrationFailed
           end
         else mret migrationFailed);
      if migrationFailed && negb existingBiome
         && negb (hasEslint loc) && negb (hasPrettier loc)
      then remove biomeConfigPath;; mret tt
      else
        err ← patchBiomeConfig biomeConfigPath;
        match err with
        | Some err => print (MsgPatchError err)
        | None => mret tt
        end;;
        print (MsgCreated biomeConfigPath)
  end.

(** Lines 96-153: the body of the second loop. *)
Definition processLocation (dryRun : bool) (entry : path * configLocation) : Run unit :=
  let '(d, loc) := entry in
  if dryRun then
    print (MsgDryRunDir d);;
    (if hasEslint loc then print MsgDryRunEslint else mret tt);;
    (if hasPrettier loc then print MsgDryRunPrettier else mret tt)
  else migrateLocation d loc.

(** [main] from line 62 on, that is once [flag.Parse] has returned with
    the values of [-input] and [-dry-run]; the result is the exit status
    of the process. *)
Definition main (inputDir : string) (dryRun : bool) : Run Z :=
  if inputDir =? "" then print MsgUsage;; mret 1%Z
  else
    abs ← resolve inputDir;
    match abs with
    | inl err => print (MsgResolveError err);; mret 1%Z
    | inr absInputDir =>
        found ← scan absInputDir;
        match found with
        | (_, Some err) => print (MsgScanError err);; mret 1%Z
        | (locations, None) =>
            if decide (size locations = 0) then print MsgNoConfigs;; mret 0%Z
            else
              print (MsgFound (size locations));;
              forEach (mapRange 0 locations) printLocation;;
              forEach (mapRange 1 locations) (processLocation dryRun);;
              print MsgDone;;
              mret 0%Z
        end
    end.

(** The exit status of a finished run. *)
Definition exitStatus (r : W * list event * outcome Z) : Z :=
  match r.2 with
  | Returned code => code
  | Panicked _ => 2%Z
  end.
End Program.

(** The events that change the disk or start a process. *)
Definition mutates (e : event) : bool :=
  match e with
  | EWriteFile _ _ | ERemove _ | EExec _ _ => true
  | _ => false
  end.

(** ** A host for running the program on examples *)

(** A machine with a table of file contents and the tree that a walk
    meets; no [npx] is installed on it, so every subprocess fails to start
    and leaves the disk alone.  Its encoder writes the same short text for
    every document: no example below reads a file back after a patch. *)
Record machine := Machine {
  files : gmap path string;
  dirTree : node
}.

(** A decoder that knows three texts, with the results [encoding/json]
    gives for them when the target is a [map[string]any]: the text [null]
    sets the map to [nil] and is no error. *)
Definition decodeSample (data : string) : goerror + option (gmap string json) :=
  if data =? "null" then inr None
  else if data =? "{}" then inr (Some ∅)
  else if data =? minimalBiomeConfig then
    inr (Some {[ "linter" := JObject {[ "enabled" := JBool true;
                   "rules" := JObject {[ "recommended" := JBool true ]} ]} ]})
  else inl (GoError false "invalid character").

#[export] Program Instance sampleHost : Host machine := {|
  filepathAbs input w := inr [input];
  hostTree root w := dirTree w;
  osStat p w :=
    match files w !! p with
    | Some _ => None
    | None => Some (GoError false "no such file or directory")
    end;
  osReadFile p w :=
    match files w !! p with
    | Some data => inr data
    | None => inl (GoError false "no such file or directory")
    end;
  osWriteFile p data w := (Machine (<[p := data]> (files w)) (dirTree w), None);
  osRemove p w := (Machine (delete p (files w)) (dirTree w), None);
  cmdRun args cwd w := (w, Some (GoError false "executable file not found in $PATH"));
  jsonUnmarshal := decodeSample;
  jsonMarshalIndent config := inr "{}";
  mapRange i m := map_to_list m
|}.
Next Obligation. reflexivity. Qed.

(** A project with one ESLint configuration and a [biome.json] that holds
    the JSON text [null]. *)
Definition nullProject : machine :=
  Machine {[ ["proj"; "biome.json"] := "null" ]}
          (Dir None [ (".eslintrc.json", File); ("biome.json", File) ]).

(** A project with one Prettier configuration and no [biome.json]. *)
Definition freshProject : machine :=
  Machine ∅ (Dir None [ (".prettierrc", File); ("index.js", File) ]).

(** A document whose parser section already holds a setting. *)
Definition parserDoc : gmap string json :=
  {[ "javascript" := JObject {[ "parser" := JObject {[ "jsxEverywhere" := JBool true ]} ]} ]}.

(** A document whose formatter section already holds a setting. *)
Definition formatterDoc : gmap string json :=
  {[ "formatter" := JObject {[ "indentStyle" := JString "space" ]} ]}.

(** A document whose formatter is not an object. *)
Definition oddDoc : gmap string json :=
  {[ "formatter" := JBool false ]}.

(** What the dry run prints for one location (lines 98-104). *)
Definition dryReport (entry : path * configLocation) : list event :=
  EPrint (MsgDryRunDir entry.1)
  :: (if hasEslint entry.2 then [EPrint MsgDryRunEslint] else [])
  ++ (if hasPrettier entry.2 then [EPrint MsgDryRunPrettier] else []).

(** The three conditions under which [main] calls [os.Exit(1)]: no
    [-input], a path that cannot be made absolute, a scan that returns an
    error. *)
Definition fatal {W : Type} `{Host W} (inputDir : string) (w : W) : Prop :=
  inputDir = ""
  ∨ (∃ err, filepathAbs inputDir w = inl err)
  ∨ (∃ root err, filepathAbs inputDir w = inr root
                 ∧ (findConfigs root (hostTree root w)).2 = Some err).

(** The tree of the scenario of the specification: [a] holds an ESLint
    configuration and a [node_modules] with another one, [b] holds a
    Prettier configuration. *)
Definition scenarioTree : node :=
  Dir None
    [ ("a", Dir None [ (".eslintrc.json", File);
                       ("node_modules", Dir None [ (".eslintrc.json", File) ]) ]);
      ("b", Dir None [ ("prettier.config.js", File) ]) ].

(** A tree in which [locked] cannot be listed for want of permission;
    [a] comes before it and [z] after it. *)
Definition lockedTree : node :=
  Dir None
    [ ("a", Dir None [ (".prettierrc", File); ("eslint.config.js", File) ]);
      ("locked", Dir (Some (GoError true "permission denied"))
                     [ (".eslintrc", File) ]);
      ("z", Dir None [ (".eslintrc", File) ]) ].

(** The same tree, where [locked] fails for another reason. *)
Definition brokenTree : node :=
  Dir None
    [ ("a", Dir None [ (".prettierrc", File); ("eslint.config.js", File) ]);
      ("locked", Dir (Some (GoError false "input/output error"))
                     [ (".eslintrc", File) ]);
      ("z", Dir None [ (".eslintrc", File) ]) ].

(** The events that the migration of the location [d] can log: its own
    progress lines, calls on the [biome.json] of [d], and one of the two
    migration commands run in [d]. *)
Definition fromLocation (d : path) (e : event) : Prop :=
  match e with
  | EPrint m =>
      match m with
      | MsgMigrating d' => d' = d
      | MsgCreated p => p = filepathJoin d "biome.json"
      | MsgCreateError _ | MsgEslintError _ | MsgEslintMigrated
      | MsgPrettierError _ | MsgPrettierMigrated | MsgPatchError _ => True
      | _ => False
      end
  | EStat p | EReadFile p | EWriteFile p _ => p = filepathJoin d "biome.json"
  | EExec args cwd =>
      cwd = d
      ∧ (args = ["npx"; "@biomejs/biome"; "migrate"; "eslint"; "--write"]
         ∨ args = ["npx"; "@biomejs/biome"; "migrate"; "prettier"; "--write"])
  | EWalk _ | ERemove _ => False
  end.

(** The calls of a run that stay within the locations of a scan result:
    every file named is the [biome.json] of a location, every process runs
    in a location, nothing is removed. *)
Definition confinedTo (locations : gmap path configLocation) (e : event) : Prop :=
  match e with
  | EPrint _ | EWalk _ => True
  | EStat p | EReadFile p | EWriteFile p _ =>
      ∃ d, is_Some (locations !! d) ∧ p = filepathJoin d "biome.json"
  | EExec args cwd =>
      is_Some (locations !! cwd)
      ∧ (args = ["npx"; "@biomejs/biome"; "migrate"; "eslint"; "--write"]
         ∨ args = ["npx"; "@biomejs/biome"; "migrate"; "prettier"; "--write"])
  | ERemove _ => False
  end.

(** The processes started during a run, in order. *)
Fixpoint execsOf (log : list event) : list (list string * path) :=
  match log with
  | [] => []
  | EExec args cwd :: rest => (args, cwd) :: execsOf rest
  | _ :: rest => execsOf rest
  end.

(** What the first loop of [main] prints for one location (lines 86-93). *)
Definition listingOf (entry : path * configLocation) : list event :=
  [EPrint (MsgLocation entry.1
             ((if hasEslint entry.2 then ["eslint"] else [])
              ++ (if hasPrettier entry.2 then ["prettier"] else [])))].

(** The tree of the scenario with the entries of its root in the other
    order. *)
Definition scenarioTreeSwapped : node :=
  Dir None
    [ ("b", Dir None [ ("prettier.config.js", File) ]);
      ("a", Dir None [ (".eslintrc.json", File);
                       ("node_modules", Dir None [ (".eslintrc.json", File) ]) ]) ].

(** A machine whose disk cannot be written: [os.WriteFile] and [os.Remove]
    fail with a permission error and change nothing; everything else is as
    on [machine]. *)
Record readOnly := ReadOnly { contents : machine }.

#[export] Program Instance readOnlyHost : Host readOnly := {|
  filepathAbs input w := inr [input];
  hostTree root w := dirTree (contents w);
  osStat p w :=
    match files (contents w) !! p with
    | Some _ => None
    | None => Some (GoError false "no such file or directory")
    end;
  osReadFile p w :=
    match files (contents w) !! p with
    | Some data => inr data
    | None => inl (GoError false "no such file or directory")
    end;
  osWriteFile p data w := (w, Some (GoError true "read-only file system"));
  osRemove p w := (w, Some (GoError true "read-only file system"));
  cmdRun args cwd w := (w, Some (GoError false "executable file not found in $PATH"));
  jsonUnmarshal := decodeSample;
  jsonMarshalIndent config := inr "{}";
  mapRange i m := map_to_list m
|}.
Next Obligation. reflexivity. Qed.

(** The files written during a run, with what was written, in order. *)
Fixpoint writesOf (log : list event) : list (path * string) :=
  match log with
  | [] => []
  | EWriteFile p data :: rest => (p, data) :: writesOf rest
  | _ :: rest => writesOf rest
  end.

(** Some path that the callback was called on is a file that the scan
    reaches, lies in the directory [d] and has its name in [names]. *)
Definition visitedFile (names : list string) (root : path) (tree : node) (d : path)
  : Prop :=
  ∃ rel, root ++ rel ∈ visitedPaths root tree
         ∧ File ∈ entered root tree rel
         ∧ filepathDir (root ++ rel) = d
         ∧ filepathBase (root ++ rel) ∈ names.

(** The part of a log before the first read of a file, and the part from
    that read on.  Only [patchBiomeConfig] reads a file. *)
Fixpoint untilRead (log : list event) : list event :=
  match log with
  | [] => []
  | EReadFile _ :: _ => []
  | e :: rest => e :: untilRead rest
  end.

Fixpoint fromRead (log : list event) : list event :=
  match log with
  | [] => []
  | EReadFile p :: rest => EReadFile p :: rest
  | _ :: rest => fromRead rest
  end.

(** Every process started is followed, later in the log, by the read of
    the [biome.json] of its working directory. *)
Fixpoint execsPatched (log : list event) : Prop :=
  match log with
  | [] => True
  | EExec args cwd :: rest =>
      EReadFile (filepathJoin cwd "biome.json") ∈ rest ∧ execsPatched rest
  | _ :: rest => execsPatched rest
  end.

(** The migration commands that the flags of a location call for. *)
Definition migrationsOf (d : path) (loc : configLocation) : list (list string * path) :=
  (if hasEslint loc
   then [(["npx"; "@biomejs/biome"; "migrate"; "eslint"; "--write"], d)] else [])
  ++ (if hasPrettier loc
      then [(["npx"; "@biomejs/biome"; "migrate"; "prettier"; "--write"], d)] else []).

(** The state of the machine once the [biome.json] of [d] has been tested
    and, if the test failed, the skeleton written (lines 110-121), and the
    state once the migrations that the flags call for have then been run
    (lines 125-141). *)
Definition afterCreation {W : Type} `{Host W} (d : path) (w : W) : W :=
  match osStat (filepathJoin d "biome.json") w with
  | None => w
  | Some _ => (osWriteFile (filepathJoin d "biome.json") minimalBiomeConfig w).1
  end.

Definition afterMigrations {W : Type} `{Host W} (d : path) (loc : configLocation)
    (w : W) : W :=
  let w1 := afterCreation d w in
  let w2 :=
    if hasEslint loc
    then (cmdRun ["npx"; "@biomejs/biome"; "migrate"; "eslint"; "--write"] d w1).1
    else w1 in
  if hasPrettier loc
  then (cmdRun ["npx"; "@biomejs/biome"; "migrate"; "prettier"; "--write"] d w2).1
  else w2.

(** * Theorems *)

(** ** The patcher *)

Lemma patchFormatter_other (config : gmap string json) (k : string) :
  k ≠ "formatter" → patchFormatter config !! k = config !! k.
Proof.
  intros Hk. unfold patchFormatter.
  destruct (config !! "formatter") as [[]|]; by rewrite lookup_insert_ne.
Qed.

Lemma patchJavascript_other (config : gmap string json) (k : string) :
  k ≠ "javascript" → patchJavascript config !! k = config !! k.
Proof.
  intros Hk. unfold patchJavascript.
  destruct (config !! "javascript") as [[]|]; by rewrite lookup_insert_ne.
Qed.

Lemma patchFormatter_idem (config : gmap string json) :
  patchFormatter (patchFormatter config) = patchFormatter config.
Proof.
  unfold patchFormatter.
  destruct (config !! "formatter") as [[]|];
    rewrite lookup_insert_eq, !insert_insert_eq; reflexivity.
Qed.

Lemma patchJavascript_idem (config : gmap string json) :
  patchJavascript (patchJavascript config) = patchJavascript config.
Proof.
  unfold patchJavascript.
  destruct (config !! "javascript") as [[]|];
    rewrite lookup_insert_eq, !insert_insert_eq; reflexivity.
Qed.

(** The two halves of the patch touch different top-level keys. *)
Lemma patch_halves_commute (config : gmap string json) :
  patchFormatter (patchJavascript config) = patchJavascript (patchFormatter config).
Proof.
  apply map_eq. intros k.
  destruct (decide (k = "formatter")) as [->|Hf].
  - rewrite patchJavascript_other by done.
    unfold patchFormatter. rewrite patchJavascript_other by done.
    destruct (config !! "formatter") as [[]|]; by rewrite !lookup_insert_eq.
  - rewrite patchFormatter_other by done.
    destruct (decide (k = "javascript")) as [->|Hj].
    + unfold patchJavascript. rewrite patchFormatter_other by done.
      destruct (config !! "javascript") as [[]|]; by rewrite !lookup_insert_eq.
    + by rewrite !patchJavascript_other, patchFormatter_other.
Qed.

Lemma patchDocument_formatter (config : gmap string json) :
  patchDocument config !! "formatter" = patchFormatter config !! "formatter".
Proof. unfold patchDocument. by rewrite patchJavascript_other. Qed.

(** C1, at a document that has a setting under [javascript.parser]: the
    patch sets [unsafeParameterDecoratorsEnabled] to true there, and the
    setting that was there is gone, because line 240 assigns a new map to
    [js["parser"]] where line 232 updates the map it found. *)
Theorem patch_drops_parser_settings :
  parserField "jsxEverywhere" parserDoc = Some (JBool true)
  ∧ parserField "jsxEverywhere" (patchDocument parserDoc) = None
  ∧ parserField "unsafeParameterDecoratorsEnabled" (patchDocument parserDoc)
    = Some (JBool true).
Proof. repeat split; vm_compute; reflexivity. Qed.

(** C2: after the patch the document has a [formatter] object.  When the
    input had one, it is that object with [formatWithErrors] set to true
    and every other key as it was; when the input had no [formatter], or
    one that is not an object, it is the object that holds
    [formatWithErrors = true] and nothing else. *)
Theorem patch_formatter_section (config : gmap string json) :
  (∀ formatter, config !! "formatter" = Some (JObject formatter) →
     ∃ formatter',
       patchDocument config !! "formatter" = Some (JObject formatter')
       ∧ formatter' !! "formatWithErrors" = Some (JBool true)
       ∧ ∀ k, k ≠ "formatWithErrors" → formatter' !! k = formatter !! k)
  ∧ ((∀ formatter, config !! "formatter" ≠ Some (JObject formatter)) →
     patchDocument config !! "formatter"
     = Some (JObject {[ "formatWithErrors" := JBool true ]})).
Proof.
  split.
  - intros formatter Hf.
    exists (<["formatWithErrors" := JBool true]> formatter).
    rewrite patchDocument_formatter. unfold patchFormatter. rewrite Hf.
    rewrite !lookup_insert_eq. split; [done|split; [done|]].
    intros k Hk. by rewrite lookup_insert_ne.
  - intros Hno. rewrite patchDocument_formatter. unfold patchFormatter.
    destruct (config !! "formatter") as [[]|] eqn:E;
      try (by rewrite lookup_insert_eq).
    by destruct (Hno fields).
Qed.

Lemma patch_formatter_section_witness :
  (∃ formatter',
     patchDocument formatterDoc !! "formatter" = Some (JObject formatter')
     ∧ formatter' !! "formatWithErrors" = Some (JBool true)
     ∧ ∀ k, k ≠ "formatWithErrors" →
         formatter' !! k
         = ({[ "indentStyle" := JString "space" ]} : gmap string json) !! k)
  ∧ patchDocument oddDoc !! "formatter"
    = Some (JObject {[ "formatWithErrors" := JBool true ]}).
Proof.
  split.
  - apply (proj1 (patch_formatter_section formatterDoc)). reflexivity.
  - apply (proj2 (patch_formatter_section oddDoc)).
    intros formatter. vm_compute. discriminate.
Defined.

(** C3: patching a patched document changes nothing, and each of the two
    injected keys is present once, with the value true. *)
Theorem patch_idempotent (config : gmap string json) :
  patchDocument (patchDocument config) = patchDocument config
  ∧ field "formatter" "formatWithErrors" (patchDocument config) = Some (JBool true)
  ∧ parserField "unsafeParameterDecoratorsEnabled" (patchDocument config)
    = Some (JBool true).
Proof.
  split; [|split].
  - unfold patchDocument.
    rewrite <- (patch_halves_commute (patchJavascript _)).
    rewrite patchJavascript_idem, patch_halves_commute, patchFormatter_idem.
    reflexivity.
  - unfold field. rewrite patchDocument_formatter. unfold patchFormatter.
    destruct (config !! "formatter") as [[]|]; by rewrite !lookup_insert_eq.
  - unfold parserField, field, patchDocument, patchJavascript.
    destruct (patchFormatter config !! "javascript") as [[]|];
      by rewrite !lookup_insert_eq.
Qed.

(** ** The patcher on disk *)

Ltac run_unfold :=
  unfold mbind, run_mbind, runBind, mret, run_mret, runRet,
    print, panic, resolve, scan, stat, readFile, writeFile, remove, run in *.

(** Membership in a log that is written out: one case per entry. *)
Ltac log_cases :=
  decompose_list_elem_of; simplify_eq; try done.

Section PatchOnDisk.
Context {W : Type} `{Host W}.

(** C8: when the file cannot be read, or its text cannot be parsed,
    [patchBiomeConfig] returns that error, and the machine is as it was:
    the only call made is the read.  And whenever [patchBiomeConfig]
    writes, the read, the parse and the serialization have all
    succeeded, and what is written to the path is the serialized patched
    document. *)
Theorem patch_failure_leaves_file (p : path) (w : W) :
  (∀ err, osReadFile p w = inl err →
     patchBiomeConfig p w = (w, [EReadFile p], Returned (Some err)))
  ∧ (∀ data err, osReadFile p w = inr data → jsonUnmarshal data = inl err →
     patchBiomeConfig p w = (w, [EReadFile p], Returned (Some err)))
  ∧ (∀ w' log r q output,
     patchBiomeConfig p w = (w', log, r) → EWriteFile q output ∈ log →
     ∃ data config,
       osReadFile p w = inr data
       ∧ jsonUnmarshal data = inr (Some config)
       ∧ jsonMarshalIndent (patchDocument config) = inr output
       ∧ q = p ∧ w' = (osWriteFile p output w).1).
Proof.
  unfold patchBiomeConfig. run_unfold. split; [|split].
  - intros err ->. reflexivity.
  - intros data err -> ->. reflexivity.
  - intros w' log r q output.
    destruct (osReadFile p w) as [err|data]; simpl.
    { intros [= <- <- <-] Hin. log_cases. }
    destruct (jsonUnmarshal data) as [err|[config|]] eqn:Hdec; simpl;
      try (intros [= <- <- <-] Hin; log_cases).
    destruct (jsonMarshalIndent (patchDocument config)) as [err|out] eqn:Hout; simpl;
      try (intros [= <- <- <-] Hin; log_cases).
    destruct (osWriteFile p out w) as [w2 err2] eqn:Hw.
    intros [= <- <- <-] Hin. log_cases.
    exists data, config. rewrite Hw. done.
Qed.
End PatchOnDisk.

Lemma patch_failure_leaves_file_witness :
  patchBiomeConfig ["proj"; "biome.json"] freshProject
  = (freshProject, [EReadFile ["proj"; "biome.json"]],
     Returned (Some (GoError false "no such file or directory"))).
Proof.
  apply (proj1 (patch_failure_leaves_file ["proj"; "biome.json"] freshProject)).
  reflexivity.
Defined.

(** ** The main loop *)

Section MainLoop.
Context {W : Type} `{Host W}.

Lemma forEach_report {A : Type} (body : A → Run unit) (report : A → list event) :
  (∀ x (w : W), body x w = (w, report x, Returned tt)) →
  ∀ items (w : W), forEach items body w = (w, concat (map report items), Returned tt).
Proof.
  intros Hbody items w. induction items as [|x rest IH]; [reflexivity|].
  simpl. run_unfold. rewrite Hbody, IH. reflexivity.
Qed.

Lemma printLocation_report (entry : path * configLocation) (w : W) :
  printLocation entry w
  = (w, [EPrint (MsgLocation entry.1
                   ((if hasEslint entry.2 then ["eslint"] else [])
                    ++ (if hasPrettier entry.2 then ["prettier"] else [])))],
     Returned tt).
Proof.
  unfold printLocation, print.
  destruct (hasEslint entry.2), (hasPrettier entry.2); reflexivity.
Qed.

Lemma processLocation_dry (entry : path * configLocation) (w : W) :
  processLocation true entry w = (w, dryReport entry, Returned tt).
Proof.
  destruct entry as [d loc]. unfold processLocation, dryReport. run_unfold. simpl.
  destruct (hasEslint loc), (hasPrettier loc); reflexivity.
Qed.

Lemma dryReport_prints (entry : path * configLocation) (e : event) :
  e ∈ dryReport entry → ∃ m, e = EPrint m.
Proof.
  unfold dryReport. destruct (hasEslint entry.2), (hasPrettier entry.2);
    simpl; intros Hin; log_cases; eauto.
Qed.

(** C6: in a dry run each location yields its report lines and nothing
    else, and the whole run leaves the machine as it was, ends without a
    panic, and logs only printed lines and the one walk of the scan: no
    file is written or removed and no process is started. *)
Theorem dry_run_is_inert (inputDir : string) (w : W) :
  (∀ entry (w0 : W),
     processLocation true entry w0 = (w0, dryReport entry, Returned tt))
  ∧ ∃ log code,
      main inputDir true w = (w, log, Returned code)
      ∧ ∀ e, e ∈ log →
          mutates e = false ∧ ((∃ m, e = EPrint m) ∨ (∃ root, e = EWalk root)).
Proof.
  split; [apply processLocation_dry|].
  unfold main. destruct (inputDir =? "").
  { run_unfold. do 2 eexists. split; [reflexivity|]. intros e He. log_cases; eauto. }
  run_unfold. destruct (filepathAbs inputDir w) as [err|root].
  { do 2 eexists. split; [reflexivity|]. intros e He. log_cases; eauto. }
  destruct (findConfigs root (hostTree root w)) as [locations [err|]].
  { do 2 eexists. split; [reflexivity|]. intros e He. log_cases; eauto. }
  destruct (decide (size locations = 0)) as [Hsize|Hsize].
  { do 2 eexists. split; [reflexivity|]. intros e He. log_cases; eauto. }
  rewrite (forEach_report printLocation _ printLocation_report).
  rewrite (forEach_report (processLocation true) _ processLocation_dry).
  do 2 eexists. split; [reflexivity|]. intros e He. simpl in He.
  repeat (rewrite ?elem_of_cons, ?elem_of_app in He).
  destruct He as [->|[->|[He|[He|[->|He]]]]]; eauto.
  - apply list_elem_of_In, in_concat in He as (l & Hl & He).
    apply in_map_iff in Hl as (entry & <- & _).
    apply list_elem_of_In, list_elem_of_singleton in He as ->. eauto.
  - apply list_elem_of_In, in_concat in He as (l & Hl & He).
    apply in_map_iff in Hl as (entry & <- & _).
    apply list_elem_of_In, dryReport_prints in He as [m ->]. eauto.
  - by apply elem_of_nil in He.
Qed.

Lemma patchBiomeConfig_log (p : path) (w w' : W) log r :
  patchBiomeConfig p w = (w', log, r) →
  log = [EReadFile p] ∨ ∃ output, log = [EReadFile p; EWriteFile p output].
Proof.
  unfold patchBiomeConfig. run_unfold.
  destruct (osReadFile p w) as [err|data]; simpl; [intros [= <- <- <-]; eauto|].
  destruct (jsonUnmarshal data) as [err|[config|]]; simpl;
    try (intros [= <- <- <-]; eauto).
  destruct (jsonMarshalIndent (patchDocument config)) as [err|output]; simpl;
    [intros [= <- <- <-]; eauto|].
  destruct (osWriteFile p output w). intros [= <- <- <-]. eauto.
Qed.

(** The test of line 143 never holds: [migrationFailed] is only set
    inside the branches guarded by the two flags. *)
Lemma migrateLocation_log (d : path) (loc : configLocation) (w w' : W) log r :
  migrateLocation d loc w = (w', log, r) →
  (∀ p, ERemove p ∉ log)
  ∧ ((∀ err, EPrint (MsgCreateError err) ∉ log) →
     EReadFile (filepathJoin d "biome.json") ∈ log).
Proof.
  unfold migrateLocation, migrateEslintConfig, migratePrettierConfig. run_unfold.
  set (biome := filepathJoin d "biome.json").
  destruct (osStat biome w) as [statErr|]; simpl.
  - destruct (osWriteFile biome minimalBiomeConfig w) as [w1 [err|]]; simpl.
    { intros [= <- <- <-]. split.
      - intros p Hin. log_cases.
      - intros Hno. destruct (Hno err). set_unfold. tauto. }
    destruct (hasEslint loc), (hasPrettier loc); simpl;
      repeat match goal with
      | |- context [cmdRun ?a ?b ?c] =>
          let w2 := fresh "w" in
          destruct (cmdRun a b c) as [w2 [?|]]; simpl
      end;
      match goal with
      | |- context [patchBiomeConfig ?p ?x] =>
          let Hp := fresh "Hp" in
          destruct (patchBiomeConfig p x) as [[? lp] [[?|]|?]] eqn:Hp;
          apply patchBiomeConfig_log in Hp as [->|[? ->]]
      end; simpl; intros [= <- <- <-];
      (split; [intros p Hin; log_cases | intros _; set_unfold; tauto]).
  - destruct (hasEslint loc), (hasPrettier loc); simpl;
      repeat match goal with
      | |- context [cmdRun ?a ?b ?c] =>
          let w2 := fresh "w" in
          destruct (cmdRun a b c) as [w2 [?|]]; simpl
      end;
      match goal with
      | |- context [patchBiomeConfig ?p ?x] =>
          let Hp := fresh "Hp" in
          destruct (patchBiomeConfig p x) as [[? lp] [[?|]|?]] eqn:Hp;
          apply patchBiomeConfig_log in Hp as [->|[? ->]]
      end; simpl; intros [= <- <- <-];
      (split; [intros p Hin; log_cases | intros _; set_unfold; tauto]).
Qed.

(** The exit status, whatever the locations and whatever fails in them:
    1 under the three conditions of [fatal], and otherwise 0 unless the
    run ends in a panic. *)
Lemma main_exit_status (inputDir : string) (dryRun : bool) (w : W) :
  (fatal inputDir w → ∃ log, main inputDir dryRun w = (w, log, Returned 1%Z))
  ∧ (¬ fatal inputDir w →
     ∃ w' log r, main inputDir dryRun w = (w', log, r)
                 ∧ (r = Returned 0%Z ∨ ∃ reason, r = Panicked reason)).
Proof.
  unfold fatal, main. destruct (String.eqb_spec inputDir "") as [->|Hne].
  { split; [eexists; reflexivity|]. intros Hf. destruct Hf. by left. }
  run_unfold. destruct (filepathAbs inputDir w) as [err|root].
  { split; [eexists; reflexivity|]. intros Hf. destruct Hf. right. left. eauto. }
  destruct (findConfigs root (hostTree root w)) as [locations [err|]] eqn:Hscan.
  { split; [eexists; reflexivity|]. intros Hf. destruct Hf. right. right.
    exists root, err. by rewrite Hscan. }
  split.
  { intros [?|[[? ?]|(root' & err & Hroot & Herr)]]; try done.
    injection Hroot as <-. rewrite Hscan in Herr. done. }
  intros _. destruct (decide (size locations = 0)); [by eauto 10|].
  destruct (forEach (mapRange 0 locations) printLocation w) as [[w1 log1] [[]|?]];
    [|by eauto 10].
  destruct (forEach (mapRange 1 locations) (processLocation dryRun) w1)
    as [[w2 log2] [[]|?]]; by eauto 10.
Qed.
End MainLoop.

(** C9, at a project whose [biome.json] holds the text [null], on a
    machine without [npx]: none of the three conditions for exit status 1
    holds, the migration of the one location fails and is reported, and
    then [patchBiomeConfig] panics, so that the process ends with exit
    status 2 and not 0. *)
Theorem null_config_crashes_run :
  ¬ fatal "proj" nullProject
  ∧ (main "proj" false nullProject).2 = Panicked "assignment to entry in nil map"
  ∧ exitStatus (main "proj" false nullProject) = 2%Z
  ∧ EPrint (MsgEslintError (GoError false "executable file not found in $PATH"))
    ∈ (main "proj" false nullProject).1.2.
Proof.
  split; [|split; [|split]].
  - intros [Hf|[[err Hf]|(root & err & Hroot & Hf)]]; [done|done|].
    injection Hroot as <-. vm_compute in Hf. discriminate.
  - vm_compute. reflexivity.
  - vm_compute. reflexivity.
  - vm_compute. set_unfold. tauto.
Qed.

(** ** The walk *)

(** Induction on a tree, with the hypothesis for every entry of a
    directory. *)
Lemma node_induction (P : node → Prop) :
  P File →
  (∀ e, P (NoStat e)) →
  (∀ readErr entries, Forall (λ e, P e.2) entries → P (Dir readErr entries)) →
  ∀ n, P n.
Proof.
  intros HFile HNoStat HDir.
  fix IH 1. intros [|readErr entries|e]; [apply HFile| |apply HNoStat].
  apply HDir. induction entries as [|[name child] rest IHrest]; constructor.
  - apply IH.
  - apply IHrest.
Qed.

Section WalkFacts.
Context {St : Type}.
Variable walkFn : path → option fileInfo → option goerror → St → St * walkResult.

Lemma walk_dir (p : path) (entries : list (string * node)) (st : St) :
  walk walkFn p (Dir None entries) st
  = match walkFn p (Some (FileInfo (filepathBase p) true)) None st with
    | (st1, WalkNil) => walkEntries walkFn p entries st1
    | other => other
    end.
Proof.
  simpl. destruct (walkFn p _ None st) as [st1 [| |e]]; try reflexivity.
  generalize st1. induction entries as [|[name child] rest IH]; intros st2.
  - reflexivity.
  - simpl. destruct (walk walkFn (filepathJoin p name) child st2) as [st3 [| |e]];
      rewrite ?IH; reflexivity.
Qed.

Lemma walk_unreadable (p : path) (e : goerror) (entries : list (string * node)) (st : St) :
  walk walkFn p (Dir (Some e) entries) st
  = walkFn p (Some (FileInfo (filepathBase p) true)) (Some e) st.
Proof. simpl. by destruct (walkFn p _ (Some e) st) as [st1 [| |e']]. Qed.

(** What every call of the callback preserves, the walk preserves. *)
Lemma walk_preserves (I : St → Prop) :
  (∀ p info err st, I st → I (walkFn p info err st).1) →
  ∀ n p st, I st → I (walk walkFn p n st).1.
Proof.
  intros Hfn. induction n as [|e|readErr entries IH] using node_induction;
    intros p st Hst; try apply Hfn; try done.
  destruct readErr as [e|]; [rewrite walk_unreadable; by apply Hfn|].
  rewrite walk_dir.
  pose proof (Hfn p (Some (FileInfo (filepathBase p) true)) None st Hst) as H1.
  destruct (walkFn p _ None st) as [st1 [| |e]]; try done.
  simpl in H1. clear Hst. revert st1 H1.
  induction IH as [|[name child] rest Hchild _ IHrest]; intros st1 H1; [done|].
  simpl. pose proof (Hchild (filepathJoin p name) st1 H1) as H2. simpl in H2.
  destruct (walk walkFn (filepathJoin p name) child st1) as [st2 [| |e]];
    simpl in *; [by apply IHrest| |done].
  destruct (returnsSkip child); [done|by apply IHrest].
Qed.
End WalkFacts.

(** ** The callback of the scan *)

Lemma slicesContains_elem_of (s : list string) (v : string) :
  slicesContains s v = true ↔ v ∈ s.
Proof.
  induction s as [|x rest IH]; simpl.
  - split; [done|]. by intros ?%elem_of_nil.
  - rewrite elem_of_cons. destruct (String.eqb_spec x v) as [->|Hne].
    + split; auto.
    + rewrite IH. split; [auto|]. intros [->|?]; done.
Qed.

(* The tables stay folded when a goal is simplified. *)
Arguments slicesContains : simpl never.
Arguments isPruned : simpl never.

Lemma markEslint_lookup (d : path) (locations : gmap path configLocation) :
  markEslint d locations !! d
  = Some match locations !! d with
         | Some loc => ConfigLocation (dir loc) true (hasPrettier loc)
         | None => ConfigLocation d true false
         end.
Proof.
  unfold markEslint. destruct (locations !! d) as [loc|] eqn:E.
  - by rewrite lookup_alter_eq, E.
  - by rewrite lookup_alter_eq, lookup_insert_eq.
Qed.

Lemma markEslint_other (d d' : path) (locations : gmap path configLocation) :
  d' ≠ d → markEslint d locations !! d' = locations !! d'.
Proof.
  intros Hne. unfold markEslint. rewrite lookup_alter_ne by done.
  destruct (locations !! d); [done|]. by rewrite lookup_insert_ne.
Qed.

Lemma markPrettier_lookup (d : path) (locations : gmap path configLocation) :
  markPrettier d locations !! d
  = Some match locations !! d with
         | Some loc => ConfigLocation (dir loc) (hasEslint loc) true
         | None => ConfigLocation d false true
         end.
Proof.
  unfold markPrettier. destruct (locations !! d) as [loc|] eqn:E.
  - by rewrite lookup_alter_eq, E.
  - by rewrite lookup_alter_eq, lookup_insert_eq.
Qed.

Lemma markPrettier_other (d d' : path) (locations : gmap path configLocation) :
  d' ≠ d → markPrettier d locations !! d' = locations !! d'.
Proof.
  intros Hne. unfold markPrettier. rewrite lookup_alter_ne by done.
  destruct (locations !! d); [done|]. by rewrite lookup_insert_ne.
Qed.

Lemma markEslint_wellFlagged (d : path) (locations : gmap path configLocation) :
  wellFlagged locations → wellFlagged (markEslint d locations).
Proof.
  intros Hwf k loc. destruct (decide (k = d)) as [->|Hne].
  - rewrite markEslint_lookup. intros [= <-].
    destruct (locations !! d) as [loc|] eqn:E; [|done].
    destruct (Hwf d loc E) as [-> _]. done.
  - rewrite markEslint_other by done. apply Hwf.
Qed.

Lemma markPrettier_wellFlagged (d : path) (locations : gmap path configLocation) :
  wellFlagged locations → wellFlagged (markPrettier d locations).
Proof.
  intros Hwf k loc. destruct (decide (k = d)) as [->|Hne].
  - rewrite markPrettier_lookup. intros [= <-].
    destruct (locations !! d) as [loc|] eqn:E; [|done].
    destruct (Hwf d loc E) as [-> _]. simpl. by rewrite orb_true_r.
  - rewrite markPrettier_other by done. apply Hwf.
Qed.

Lemma visit_wellFlagged (p : path) (info : option fileInfo) (err : option goerror)
    (locations : gmap path configLocation) :
  wellFlagged locations → wellFlagged (visit p info err locations).1.
Proof.
  intros Hwf. unfold visit.
  destruct err as [e|]; [by destruct (isPermission e)|].
  destruct info as [[name [|]]|]; simpl; [by destruct (isPruned name)| |done].
  destruct (slicesContains eslintConfigFiles name),
    (slicesContains prettierConfigFiles name); simpl;
    auto using markEslint_wellFlagged, markPrettier_wellFlagged.
Qed.

Lemma findConfigs_wellFlagged (root : path) (tree : node) :
  wellFlagged (findConfigs root tree).1.
Proof.
  unfold findConfigs, Walk.
  pose proof (walk_preserves visit wellFlagged visit_wellFlagged tree root ∅) as Hw.
  destruct (walk visit root tree ∅) as [st r]. apply Hw.
  intros k loc. by rewrite lookup_empty.
Qed.

(** What the callback does with something that is not a directory. *)
Lemma visit_file (q : path) (name : string) (locations : gmap path configLocation) :
  ∃ locations',
    visit q (Some (FileInfo name false)) None locations = (locations', WalkNil)
    ∧ (∀ d, eslintAt locations' d
            = eslintAt locations d
              || (bool_decide (d = filepathDir q)
                  && slicesContains eslintConfigFiles name))
    ∧ (∀ d, prettierAt locations' d
            = prettierAt locations d
              || (bool_decide (d = filepathDir q)
                  && slicesContains prettierConfigFiles name)).
Proof.
  unfold visit. simpl. eexists. split; [reflexivity|].
  unfold eslintAt, prettierAt.
  destruct (slicesContains eslintConfigFiles name),
    (slicesContains prettierConfigFiles name);
    (split; intros d; case_bool_decide as Hd; subst;
     rewrite ?andb_true_r, ?andb_false_r, ?orb_false_r;
     rewrite ?markPrettier_lookup, ?markEslint_lookup;
     rewrite ?markPrettier_other, ?markEslint_other by done;
     try done;
     destruct (locations !! filepathDir q) as [loc|]; simpl;
     rewrite ?orb_true_r; done).
Qed.

(** What the callback does with a directory whose listing was read. *)
Lemma visit_dir (p : path) (name : string) (locations : gmap path configLocation) :
  visit p (Some (FileInfo name true)) None locations
  = (locations, if isPruned name then SkipDir else WalkNil).
Proof. unfold visit. simpl. by destruct (isPruned name). Qed.

(** What the callback does with an error. *)
Lemma visit_error (p : path) (info : option fileInfo) (e : goerror) (locations : gmap path configLocation) :
  visit p info (Some e) locations
  = (locations, if isPermission e then SkipDir else WalkErr e).
Proof. unfold visit. by destruct (isPermission e). Qed.

(** ** Where the scan goes *)

Lemma entered_nil (p : path) (n n' : node) : n' ∈ entered p n [] ↔ n' = n.
Proof. simpl. apply list_elem_of_singleton. Qed.

Lemma entered_cons (p : path) (n n' : node) (name : string) (rel : list string) :
  n' ∈ entered p n (name :: rel)
  ↔ ∃ entries child,
      n = Dir None entries ∧ isPruned (filepathBase p) = false
      ∧ (name, child) ∈ entries ∧ n' ∈ entered (filepathJoin p name) child rel.
Proof.
  simpl. split.
  - destruct n as [|[e|] entries|e]; try by intros ?%elem_of_nil.
    destruct (isPruned (filepathBase p)) eqn:Hp; [by intros ?%elem_of_nil|].
    intros Hin. apply list_elem_of_In, in_flat_map in Hin as ([name' child] & Hentry & Hin).
    simpl in Hin. destruct (String.eqb_spec name' name) as [->|Hne]; [|done].
    exists entries, child. by rewrite !list_elem_of_In.
  - intros (entries & child & -> & -> & Hentry & Hin).
    apply list_elem_of_In, in_flat_map. exists (name, child).
    simpl. rewrite String.eqb_refl. by rewrite <- !list_elem_of_In.
Qed.

(** Every directory on the way to a node that the scan reaches has a name
    that is not pruned. *)
Lemma entered_not_pruned (rel1 rel2 : list string) (p : path) (n n' : node) :
  n' ∈ entered p n (rel1 ++ rel2) → rel2 ≠ [] →
  isPruned (filepathBase (p ++ rel1)) = false.
Proof.
  revert p n. induction rel1 as [|name rel1 IH]; intros p n Hin Hne.
  - rewrite app_nil_r. destruct rel2 as [|name rel2]; [done|].
    apply entered_cons in Hin as (? & ? & _ & Hp & _). done.
  - simpl in Hin. change (n' ∈ entered p n (name :: (rel1 ++ rel2))) in Hin.
    apply entered_cons in Hin as (entries & child & _ & _ & _ & Hin).
    apply IH in Hin; [|done]. unfold filepathJoin in Hin.
    by rewrite <- app_assoc in Hin.
Qed.

Lemma classifiedBy_file (names : list string) (q d : path) :
  classifiedBy names q File d ↔ filepathDir q = d ∧ filepathBase q ∈ names.
Proof.
  unfold classifiedBy. split.
  - intros ([|name rel] & Hin & Hd & Hb).
    + by rewrite app_nil_r in *.
    + apply entered_cons in Hin as (? & ? & ? & _). done.
  - intros [Hd Hb]. exists []. rewrite app_nil_r. by rewrite entered_nil.
Qed.

Lemma classifiedBy_dir (names : list string) (p d : path) (entries : list (string * node)) :
  classifiedBy names p (Dir None entries) d
  ↔ isPruned (filepathBase p) = false
    ∧ ∃ name child, (name, child) ∈ entries
                    ∧ classifiedBy names (filepathJoin p name) child d.
Proof.
  unfold classifiedBy, filepathJoin. split.
  - intros ([|name rel] & Hin & Hd & Hb).
    + by apply entered_nil in Hin.
    + apply entered_cons in Hin as (? & child & [= <-] & Hp & Hentry & Hin).
      split; [done|]. exists name, child. split; [done|].
      exists rel. by rewrite <- app_assoc.
  - intros (Hp & name & child & Hentry & rel & Hin & Hd & Hb).
    exists (name :: rel). rewrite <- app_assoc in Hd, Hb. split; [|done].
    apply entered_cons. by exists entries, child.
Qed.

Lemma classifiedBy_failed (names : list string) (p d : path) (n : node) :
  is_Some (errorAt n) → ¬ classifiedBy names p n d.
Proof.
  intros Herr ([|name rel] & Hin & _).
  - apply entered_nil in Hin as <-. by destruct Herr.
  - apply entered_cons in Hin as (? & ? & -> & _). by destruct Herr.
Qed.

Lemma walk_file_result (q : path) (st : gmap path configLocation) :
  (walk visit q File st).2 = WalkNil.
Proof.
  change (walk visit q File st)
    with (visit q (Some (FileInfo (filepathBase q) false)) None st).
  destruct (visit_file q (filepathBase q) st) as (st' & -> & _). done.
Qed.

(** ** The flags after the walk *)

Section Flags.
Variable names : list string.
Variable flagAt : gmap path configLocation → path → bool.
Hypothesis flag_file : ∀ q name st d,
  flagAt (visit q (Some (FileInfo name false)) None st).1 d
  = flagAt st d || (bool_decide (d = filepathDir q) && slicesContains names name).

Lemma tracks_same (found : path → Prop) st r :
  (∀ d, ¬ found d) → tracks flagAt found st st r.
Proof. intros Hno. split; [auto|split; [auto|]]. intros _ d Hd. by destruct (Hno d). Qed.

Lemma tracks_iff (found found' : path → Prop) st st' r :
  (∀ d, found d ↔ found' d) → tracks flagAt found st st' r → tracks flagAt found' st st' r.
Proof.
  intros Hiff (Hs & Hm & Hc). split; [|split; [done|]].
  - intros d Hd. destruct (Hs d Hd); [by left|right; by apply Hiff].
  - intros Hr d Hd. apply Hc; [done|by apply Hiff].
Qed.

Lemma tracks_seq (F1 F2 : path → Prop) st st1 st2 r1 r2 :
  tracks flagAt F1 st st1 r1 → (∀ e, r1 ≠ WalkErr e) →
  tracks flagAt F2 st1 st2 r2 →
  tracks flagAt (λ d, F1 d ∨ F2 d) st st2 r2.
Proof.
  intros (Hs1 & Hm1 & Hc1) Hr1 (Hs2 & Hm2 & Hc2). split; [|split].
  - intros d Hd. destruct (Hs2 d Hd) as [Hd1|?]; [|by auto].
    destruct (Hs1 d Hd1); auto.
  - auto.
  - intros Hr2 d [Hd|Hd]; auto.
Qed.

Lemma tracks_stop (F1 F2 : path → Prop) st st1 e :
  tracks flagAt F1 st st1 (WalkErr e) →
  tracks flagAt (λ d, F1 d ∨ F2 d) st st1 (WalkErr e).
Proof.
  intros (Hs1 & Hm1 & _). split; [|split; [done|]].
  - intros d Hd. destruct (Hs1 d Hd); auto.
  - intros Hr. by destruct (Hr e).
Qed.

Lemma walkEntries_tracks (p : path) (entries : list (string * node)) :
  Forall (λ e, ∀ q st, tracks flagAt (classifiedBy names q e.2) st
                         (walk visit q e.2 st).1 (walk visit q e.2 st).2) entries →
  ∀ st,
    tracks flagAt
      (λ d, ∃ name child, (name, child) ∈ entries
                          ∧ classifiedBy names (filepathJoin p name) child d)
      st (walkEntries visit p entries st).1 (walkEntries visit p entries st).2.
Proof.
  induction 1 as [|[name child] rest Hchild _ IH]; intros st.
  - apply tracks_same. intros d (? & ? & ?%elem_of_nil & _). done.
  - simpl. specialize (Hchild (filepathJoin p name) st). cbn [snd] in Hchild.
    assert (∀ d, (classifiedBy names (filepathJoin p name) child d
                  ∨ ∃ name' child', (name', child') ∈ rest
                      ∧ classifiedBy names (filepathJoin p name') child' d)
                 ↔ ∃ name' child', (name', child') ∈ (name, child) :: rest
                      ∧ classifiedBy names (filepathJoin p name') child' d) as Hiff.
    { intros d. split.
      - intros [Hd|(name' & child' & Hin & Hd)].
        + exists name, child. split; [by left|done].
        + exists name', child'. split; [by right|done].
      - intros (name' & child' & Hin & Hd).
        apply elem_of_cons in Hin as [[= -> ->]|Hin]; [by left|right; eauto]. }
    destruct (walk visit (filepathJoin p name) child st) as [st1 r1] eqn:Hw.
    cbn [fst snd] in Hchild. destruct r1 as [| |e].
    + eapply tracks_iff; [apply Hiff|]. eapply tracks_seq; [apply Hchild|done|apply IH].
    + destruct (returnsSkip child) eqn:Hskip.
      { destruct child; try discriminate. }
      eapply tracks_iff; [apply Hiff|].
      eapply tracks_seq; [apply Hchild|done|apply IH].
    + eapply tracks_iff; [apply Hiff|]. by apply tracks_stop.
Qed.

Lemma walk_tracks (n : node) (p : path) (st : gmap path configLocation) :
  tracks flagAt (classifiedBy names p n) st (walk visit p n st).1 (walk visit p n st).2.
Proof.
  revert p st. induction n as [|e|readErr entries IH] using node_induction; intros p st.
  - change (walk visit p File st)
      with (visit p (Some (FileInfo (filepathBase p) false)) None st).
    pose proof (flag_file p (filepathBase p) st) as Hflag.
    destruct (visit_file p (filepathBase p) st) as (st' & Hv & _).
    rewrite Hv in *. cbn [fst snd] in *. split; [|split].
    + intros d. rewrite Hflag, orb_true_iff, andb_true_iff, bool_decide_eq_true.
      rewrite slicesContains_elem_of, classifiedBy_file. intuition.
    + intros d Hd. by rewrite Hflag, Hd.
    + intros _ d [Hd Hb]%classifiedBy_file.
      rewrite Hflag. apply slicesContains_elem_of in Hb as ->.
      rewrite (bool_decide_eq_true_2 _ (eq_sym Hd)). apply orb_true_r.
  - change (walk visit p (NoStat e) st) with (visit p None (Some e) st).
    rewrite visit_error. apply tracks_same.
    intros d. by apply classifiedBy_failed.
  - destruct readErr as [e|].
    { rewrite walk_unreadable, visit_error. apply tracks_same.
      intros d. by apply classifiedBy_failed. }
    rewrite walk_dir, visit_dir.
    destruct (isPruned (filepathBase p)) eqn:Hp.
    { apply tracks_same. intros d [? _]%classifiedBy_dir. congruence. }
    eapply tracks_iff; [|by apply walkEntries_tracks].
    intros d. rewrite classifiedBy_dir. intuition.
Qed.

Hypothesis flag_empty : ∀ d, flagAt ∅ d = false.

(** After a scan the flag is set only in the directories that hold a
    file of the family, and when the scan returns no error it is set in
    each of them. *)
Lemma findConfigs_flag (root : path) (tree : node) (d : path) :
  (flagAt (findConfigs root tree).1 d = true → classifiedBy names root tree d)
  ∧ ((findConfigs root tree).2 = None →
     classifiedBy names root tree d → flagAt (findConfigs root tree).1 d = true).
Proof.
  unfold findConfigs, Walk. pose proof (walk_tracks tree root ∅) as (Hs & _ & Hc).
  destruct (walk visit root tree ∅) as [st r]. simpl in *. split.
  - intros Hd. destruct (Hs d Hd) as [He|]; [|done]. by rewrite flag_empty in He.
  - intros Hr. apply Hc. intros e ->. done.
Qed.
End Flags.

Lemma eslintAt_file q name st d :
  eslintAt (visit q (Some (FileInfo name false)) None st).1 d
  = eslintAt st d
    || (bool_decide (d = filepathDir q) && slicesContains eslintConfigFiles name).
Proof. destruct (visit_file q name st) as (st' & -> & He & _). apply He. Qed.

Lemma prettierAt_file q name st d :
  prettierAt (visit q (Some (FileInfo name false)) None st).1 d
  = prettierAt st d
    || (bool_decide (d = filepathDir q) && slicesContains prettierConfigFiles name).
Proof. destruct (visit_file q name st) as (st' & -> & _ & Hp). apply Hp. Qed.

Lemma eslintAt_empty (d : path) : eslintAt ∅ d = false.
Proof. unfold eslintAt. by rewrite lookup_empty. Qed.

Lemma prettierAt_empty (d : path) : prettierAt ∅ d = false.
Proof. unfold prettierAt. by rewrite lookup_empty. Qed.

(** The two instances of [findConfigs_flag]. *)
Lemma findConfigs_eslint (root : path) (tree : node) (d : path) :
  (eslintAt (findConfigs root tree).1 d = true
   → classifiedBy eslintConfigFiles root tree d)
  ∧ ((findConfigs root tree).2 = None →
     classifiedBy eslintConfigFiles root tree d →
     eslintAt (findConfigs root tree).1 d = true).
Proof. exact (findConfigs_flag _ eslintAt eslintAt_file eslintAt_empty root tree d). Qed.

Lemma findConfigs_prettier (root : path) (tree : node) (d : path) :
  (prettierAt (findConfigs root tree).1 d = true
   → classifiedBy prettierConfigFiles root tree d)
  ∧ ((findConfigs root tree).2 = None →
     classifiedBy prettierConfigFiles root tree d →
     prettierAt (findConfigs root tree).1 d = true).
Proof.
  exact (findConfigs_flag _ prettierAt prettierAt_file prettierAt_empty root tree d).
Qed.

(** ** Pruned directories *)

Lemma traced_visit (p : path) (info : option fileInfo) (err : option goerror)
    (st : gmap path configLocation) (seen : list path) :
  traced visit p info err (st, seen)
  = (((visit p info err st).1, seen ++ [p]), (visit p info err st).2).
Proof. unfold traced. simpl. by destruct (visit p info err st). Qed.

(** The callback is only ever called on paths that the scan reaches. *)
Lemma traced_walk (n : node) (p : path) (st : gmap path configLocation) (seen : list path) :
  ∃ new, (walk (traced visit) p n (st, seen)).1.2 = seen ++ new
         ∧ ∀ q, q ∈ new → ∃ rel n', q = p ++ rel ∧ n' ∈ entered p n rel.
Proof.
  assert (∀ n', ∃ rel n'', p = p ++ rel ∧ n'' ∈ entered p n' rel) as Hhere.
  { intros n'. exists [], n'. by rewrite app_nil_r, entered_nil. }
  revert p st seen Hhere.
  induction n as [|e|readErr entries IH] using node_induction; intros p st seen Hhere.
  - change (walk (traced visit) p File (st, seen))
      with (traced visit p (Some (FileInfo (filepathBase p) false)) None (st, seen)).
    rewrite traced_visit. exists [p]. split; [done|].
    intros q ->%list_elem_of_singleton. apply Hhere.
  - change (walk (traced visit) p (NoStat e) (st, seen))
      with (traced visit p None (Some e) (st, seen)).
    rewrite traced_visit. exists [p]. split; [done|].
    intros q ->%list_elem_of_singleton. apply Hhere.
  - destruct readErr as [e|].
    { rewrite walk_unreadable, traced_visit. exists [p]. split; [done|].
      intros q ->%list_elem_of_singleton. apply Hhere. }
    rewrite walk_dir, traced_visit, visit_dir. cbn [fst snd].
    destruct (isPruned (filepathBase p)) eqn:Hp.
    { exists [p]. split; [done|]. intros q ->%list_elem_of_singleton. apply Hhere. }
    assert (∀ st1 seen1,
      ∃ new, (walkEntries (traced visit) p entries (st1, seen1)).1.2 = seen1 ++ new
             ∧ ∀ q, q ∈ new →
                 ∃ name child rel n', (name, child) ∈ entries
                   ∧ q = filepathJoin p name ++ rel
                   ∧ n' ∈ entered (filepathJoin p name) child rel) as Hloop.
    { clear Hhere. induction IH as [|[name child] rest Hchild _ IHrest]; intros st1 seen1.
      - exists []. split; [by rewrite app_nil_r|]. by intros q ?%elem_of_nil.
      - simpl.
        destruct (Hchild (filepathJoin p name) st1 seen1) as (new1 & Hseen & Hnew1).
        { intros n'. exists [], n'. by rewrite app_nil_r, entered_nil. }
        simpl in Hseen.
        destruct (walk (traced visit) (filepathJoin p name) child (st1, seen1))
          as [[st2 seen2] r]. simpl in Hseen. subst seen2.
        assert (∀ q, q ∈ new1 →
                  ∃ name' child' rel n', (name', child') ∈ (name, child) :: rest
                    ∧ q = filepathJoin p name' ++ rel
                    ∧ n' ∈ entered (filepathJoin p name') child' rel) as Hnew1'.
        { intros q (rel & n' & -> & Hin)%Hnew1.
          exists name, child, rel, n'. split; [by left|done]. }
        destruct (IHrest st2 (seen1 ++ new1)) as (new2 & Hseen2 & Hnew2).
        assert (∃ new, (walkEntries (traced visit) p rest (st2, seen1 ++ new1)).1.2
                       = seen1 ++ new
                       ∧ ∀ q, q ∈ new →
                           ∃ name' child' rel n', (name', child') ∈ (name, child) :: rest
                             ∧ q = filepathJoin p name' ++ rel
                             ∧ n' ∈ entered (filepathJoin p name') child' rel) as Hgo.
        { exists (new1 ++ new2). split; [by rewrite Hseen2, app_assoc|].
          intros q [Hq|Hq]%elem_of_app; [by apply Hnew1'|].
          destruct (Hnew2 q Hq) as (name' & child' & rel & n' & Hin & ? & ?).
          exists name', child', rel, n'. split; [by right|done]. }
        destruct r as [| |e]; [done| |by exists new1].
        destruct (returnsSkip child); [by exists new1|done]. }
    destruct (Hloop st (seen ++ [p])) as (new & Hseen & Hnew).
    exists (p :: new). split; [by rewrite Hseen, <- app_assoc|].
    intros q [->|Hq]%elem_of_cons; [apply Hhere|].
    destruct (Hnew q Hq) as (name & child & rel & n' & Hin & -> & Hrel).
    exists (name :: rel), n'. split; [unfold filepathJoin; by rewrite <- app_assoc|].
    apply entered_cons. by exists entries, child.
Qed.

Lemma visitedPaths_entered (root q : path) (tree : node) :
  q ∈ visitedPaths root tree → ∃ rel n', q = root ++ rel ∧ n' ∈ entered root tree rel.
Proof.
  unfold visitedPaths, Walk.
  destruct (traced_walk tree root ∅ []) as (new & Hseen & Hnew).
  destruct (walk (traced visit) root tree (∅, [])) as [[st seen] r].
  simpl in *. subst seen. apply Hnew.
Qed.

Lemma between_prefixes (root d : path) (rel : list string) :
  root `prefix_of` d → d `prefix_of` root ++ rel →
  ∃ rel1 rel2, d = root ++ rel1 ∧ rel = rel1 ++ rel2.
Proof.
  intros [rel1 ->] [rel2 Heq]. exists rel1, rel2. split; [done|].
  rewrite <- app_assoc in Heq. by apply app_inv_head in Heq.
Qed.

(** The directory of a file that the scan reaches, and every directory of
    the tree above it, has a name that is not pruned. *)
Lemma classified_not_pruned (names : list string) (root k d : path) (tree : node) :
  classifiedBy names root tree k →
  root `prefix_of` d → d `prefix_of` k → isPruned (filepathBase d) = false.
Proof.
  intros (rel & Hin & <- & _) Hroot Hd. unfold filepathDir in Hd.
  destruct rel as [|x rel0 _] using rev_ind.
  - rewrite app_nil_r in Hd.
    destruct root as [|y root0 _] using rev_ind.
    + destruct Hroot as [a ->], Hd as [b Hb]. simpl in Hb.
      symmetry in Hb. apply app_eq_nil in Hb as [-> _]. reflexivity.
    + rewrite removelast_last in Hd. destruct Hroot as [a ->], Hd as [b Hb].
      apply (f_equal length) in Hb. rewrite !length_app in Hb. simpl in Hb. lia.
  - rewrite app_assoc, removelast_last in Hd.
    destruct (between_prefixes root d rel0 Hroot Hd) as (rel1 & rel2 & -> & ->).
    rewrite <- app_assoc in Hin.
    apply (entered_not_pruned rel1 (rel2 ++ [x]) root tree File Hin).
    by destruct rel2.
Qed.

(** C4: of the directories of the scanned tree, none with a pruned name is
    a key of the result, and none lies above a key or above a path on
    which the callback is called: nothing beneath a pruned directory is
    visited or classified. *)
Theorem pruned_never_scanned (root : path) (tree : node) :
  (∀ k d, is_Some ((findConfigs root tree).1 !! k) →
          root `prefix_of` d → d `prefix_of` k → isPruned (filepathBase d) = false)
  ∧ (∀ q d, q ∈ visitedPaths root tree →
            root `prefix_of` d → d `prefix_of` q → d ≠ q →
            isPruned (filepathBase d) = false).
Proof.
  split.
  - intros k d [loc Hloc] Hroot Hd.
    destruct (findConfigs_wellFlagged root tree k loc Hloc) as [_ Hflag].
    apply orb_true_iff in Hflag as [Hflag|Hflag].
    + eapply (classified_not_pruned eslintConfigFiles); [|done|done].
      apply findConfigs_eslint. unfold eslintAt. by rewrite Hloc.
    + eapply (classified_not_pruned prettierConfigFiles); [|done|done].
      apply findConfigs_prettier. unfold prettierAt. by rewrite Hloc.
  - intros q d (rel & n' & -> & Hin)%visitedPaths_entered Hroot Hd Hne.
    destruct (between_prefixes root d rel Hroot Hd) as (rel1 & rel2 & -> & ->).
    apply (entered_not_pruned rel1 rel2 root tree n' Hin).
    intros ->. by rewrite app_nil_r in Hne.
Qed.

Lemma pruned_never_scanned_witness :
  is_Some ((findConfigs ["proj"] scenarioTree).1 !! ["proj"; "a"])
  ∧ ["proj"; "a"; ".eslintrc.json"] ∈ visitedPaths ["proj"] scenarioTree
  ∧ isPruned (filepathBase ["proj"; "a"]) = false.
Proof.
  split; [|split].
  - eexists. vm_compute. reflexivity.
  - vm_compute. set_unfold. tauto.
  - apply (proj2 (pruned_never_scanned ["proj"] scenarioTree)
             ["proj"; "a"; ".eslintrc.json"] ["proj"; "a"]).
    + vm_compute. set_unfold. tauto.
    + by exists ["a"].
    + by exists [".eslintrc.json"].
    + discriminate.
Defined.

(** The scenario of the specification: two records, and the file under
    [node_modules] is never given to the callback. *)
Example scenario_scan :
  map_to_list (findConfigs ["proj"] scenarioTree).1
  ≡ₚ [ (["proj"; "a"], ConfigLocation ["proj"; "a"] true false);
       (["proj"; "b"], ConfigLocation ["proj"; "b"] false true) ]
  ∧ (findConfigs ["proj"] scenarioTree).2 = None
  ∧ ["proj"; "a"; "node_modules"; ".eslintrc.json"] ∉ visitedPaths ["proj"] scenarioTree.
Proof.
  split; [|split].
  - vm_compute. apply perm_swap.
  - reflexivity.
  - replace (visitedPaths ["proj"] scenarioTree)
      with [ ["proj"]; ["proj"; "a"]; ["proj"; "a"; ".eslintrc.json"];
             ["proj"; "a"; "node_modules"]; ["proj"; "b"];
             ["proj"; "b"; "prettier.config.js"] ]
      by (vm_compute; reflexivity).
    intros Hin. decompose_list_elem_of; discriminate.
Qed.

(** ** Records and the dead branch *)

Section Records.
Context {W : Type} `{Host W}.

Lemma forEach_log {A : Type} (P : event → Prop) (body : A → Run unit) :
  (∀ x (w w' : W) log r, body x w = (w', log, r) → Forall P log) →
  ∀ items (w w' : W) log r, forEach items body w = (w', log, r) → Forall P log.
Proof.
  intros Hbody items. induction items as [|x rest IH]; intros w w' log r.
  - simpl. run_unfold. intros [= <- <- <-]. constructor.
  - simpl. run_unfold.
    destruct (body x w) as [[w1 log1] [[]|reason]] eqn:Hx.
    + destruct (forEach rest body w1) as [[w2 log2] r2] eqn:Hrest.
      intros [= <- <- <-]. apply Forall_app. split; [by eapply Hbody|by eapply IH].
    + intros [= <- <- <-]. by eapply Hbody.
Qed.

Lemma processLocation_log (dryRun : bool) (entry : path * configLocation)
    (w w' : W) log r :
  processLocation dryRun entry w = (w', log, r) →
  Forall (λ e, ∀ p, e ≠ ERemove p) log.
Proof.
  destruct entry as [d loc]. destruct dryRun.
  - rewrite processLocation_dry. intros [= <- <- <-].
    apply Forall_forall. intros e (m & ->)%dryReport_prints. done.
  - simpl. intros [Hno _]%migrateLocation_log.
    apply Forall_forall. intros e He p ->. by apply (Hno p).
Qed.

Lemma main_never_removes (inputDir : string) (dryRun : bool) (w w' : W) log r :
  main inputDir dryRun w = (w', log, r) → ∀ p, ERemove p ∉ log.
Proof.
  intros Hmain p Hin. revert Hmain Hin. unfold main. destruct (inputDir =? "").
  { run_unfold. intros [= <- <- <-] Hin. log_cases. }
  run_unfold. destruct (filepathAbs inputDir w) as [err|root].
  { intros [= <- <- <-] Hin. log_cases. }
  destruct (findConfigs root (hostTree root w)) as [locations [err|]].
  { intros [= <- <- <-] Hin. log_cases. }
  destruct (decide (size locations = 0)).
  { intros [= <- <- <-] Hin. log_cases. }
  rewrite (forEach_report printLocation _ printLocation_report).
  destruct (forEach (mapRange 1 locations) (processLocation dryRun) w)
    as [[w2 log2] r2] eqn:Hloop.
  apply (forEach_log (λ e, ∀ p, e ≠ ERemove p)) in Hloop;
    [|intros; by eapply processLocation_log].
  assert (Forall (λ e, ∀ p, e ≠ ERemove p)
            (concat (map (λ entry : path * configLocation,
               [EPrint (MsgLocation entry.1
                  ((if hasEslint entry.2 then ["eslint"] else [])
                   ++ (if hasPrettier entry.2 then ["prettier"] else [])))])
               (mapRange 0 locations)))) as Hlist.
  { apply Forall_forall. intros e He.
    apply list_elem_of_In, in_concat in He as (l & Hl & He).
    apply in_map_iff in Hl as (entry & <- & _).
    apply list_elem_of_In, list_elem_of_singleton in He as ->. done. }
  assert (∀ log', Forall (λ e, ∀ p, e ≠ ERemove p) log' → ERemove p ∈ log' → False)
    as Hend.
  { intros log' Hall Hp. rewrite Forall_forall in Hall. by apply (Hall _ Hp p). }
  destruct r2 as [[]|reason]; intros [= <- <- <-] Hin; apply (Hend _) in Hin;
    try done; simpl;
    repeat first [ apply Forall_nil_2 | apply Forall_cons; split; [done|]
                 | apply Forall_app; split | assumption ].
Qed.
End Records.

(** ** Classification *)

Lemma hasFile_classified (names : list string) (root : path) (tree : node)
    (rel : list string) (name : string) :
  hasFile root tree rel name → name ∈ names →
  classifiedBy names root tree (root ++ rel).
Proof.
  intros Hfile Hname. exists (rel ++ [name]). split; [done|].
  unfold filepathDir, filepathBase. by rewrite !app_assoc, removelast_last, last_last.
Qed.

Lemma classified_hasFile (names : list string) (root : path) (tree : node)
    (rel : list string) :
  "/" ∉ names → classifiedBy names root tree (root ++ rel) →
  ∃ name, name ∈ names ∧ hasFile root tree rel name.
Proof.
  intros Hslash (rel' & Hin & Hd & Hb). unfold filepathDir, filepathBase in *.
  destruct rel' as [|x rel0 _] using rev_ind.
  - rewrite app_nil_r in *. destruct root as [|y root0 _] using rev_ind.
    + done.
    + rewrite removelast_last in Hd. apply (f_equal length) in Hd.
      rewrite !length_app in Hd. simpl in Hd. lia.
  - rewrite app_assoc, removelast_last in Hd. rewrite app_assoc, last_last in Hb.
    apply app_inv_head in Hd as ->. by exists x.
Qed.

Lemma no_slash_name :
  ("/" ∉ eslintConfigFiles) ∧ ("/" ∉ prettierConfigFiles).
Proof.
  split; intros Hin%slicesContains_elem_of; vm_compute in Hin; discriminate.
Qed.

(** C5: after a scan that returns no error, a directory that the scan
    enters and that holds a file [.eslintrc.json] and no file with a name of
    the Prettier table has the record with the linter flag set and the
    formatter flag clear; one that holds [.prettierrc] and
    [eslint.config.js] has one record with both flags set; and in general
    a flag is set for a directory exactly when a file that the scan reaches
    in it has its name in the table of that family. *)
Theorem classification (root : path) (tree : node)
    (locations : gmap path configLocation) :
  findConfigs root tree = (locations, None) →
  (∀ rel,
     hasFile root tree rel ".eslintrc.json" →
     (∀ name, name ∈ prettierConfigFiles → ¬ hasFile root tree rel name) →
     locations !! (root ++ rel) = Some (ConfigLocation (root ++ rel) true false))
  ∧ (∀ rel,
     hasFile root tree rel ".prettierrc" →
     hasFile root tree rel "eslint.config.js" →
     locations !! (root ++ rel) = Some (ConfigLocation (root ++ rel) true true))
  ∧ (∀ d,
     (eslintAt locations d = true ↔ classifiedBy eslintConfigFiles root tree d)
     ∧ (prettierAt locations d = true ↔ classifiedBy prettierConfigFiles root tree d)).
Proof.
  intros Hscan.
  pose proof (findConfigs_wellFlagged root tree) as Hwf.
  pose proof (findConfigs_eslint root tree) as He.
  pose proof (findConfigs_prettier root tree) as Hp.
  rewrite Hscan in Hwf, He, Hp. cbn [fst snd] in *.
  assert (∀ d, eslintAt locations d = true ↔ classifiedBy eslintConfigFiles root tree d)
    as HE by (intros d; destruct (He d); split; auto).
  assert (∀ d, prettierAt locations d = true
               ↔ classifiedBy prettierConfigFiles root tree d)
    as HP by (intros d; destruct (Hp d); split; auto).
  assert (∀ d e p, eslintAt locations d = e → prettierAt locations d = p →
                   e || p = true → locations !! d = Some (ConfigLocation d e p))
    as Hrecord.
  { intros d e p. unfold eslintAt, prettierAt.
    destruct (locations !! d) as [[d' e' p']|] eqn:Hd; simpl.
    - intros -> -> _. by destruct (Hwf d _ Hd) as [<- _].
    - by intros <- <-. }
  split; [|split; [|by split]].
  - intros rel Hfile Hnone. apply Hrecord; [|apply not_true_is_false|done].
    + apply HE. eapply hasFile_classified; [done|].
      apply slicesContains_elem_of. reflexivity.
    + intros (name & Hname & Hf)%HP%classified_hasFile; [|apply no_slash_name].
      by apply (Hnone name).
  - intros rel Hpr Hes. apply Hrecord; [| |done].
    + apply HE. apply (hasFile_classified _ _ _ _ "eslint.config.js"); [done|].
      apply slicesContains_elem_of. reflexivity.
    + apply HP. apply (hasFile_classified _ _ _ _ ".prettierrc"); [done|].
      apply slicesContains_elem_of. reflexivity.
Qed.

Ltac solve_hasFile :=
  unfold hasFile; apply list_elem_of_In; vm_compute; tauto.

Lemma classification_witness :
  (findConfigs ["proj"] scenarioTree).1 !! ["proj"; "a"]
  = Some (ConfigLocation ["proj"; "a"] true false)
  ∧ (findConfigs ["proj"] lockedTree).1 !! ["proj"; "a"]
    = Some (ConfigLocation ["proj"; "a"] true true).
Proof.
  split.
  - apply (proj1 (classification ["proj"] scenarioTree
                    (findConfigs ["proj"] scenarioTree).1 eq_refl) ["a"]).
    + solve_hasFile.
    + intros name Hname Hfile. unfold prettierConfigFiles in Hname.
      apply list_elem_of_In in Hfile.
      decompose_list_elem_of; subst; vm_compute in Hfile; tauto.
  - apply (proj1 (proj2 (classification ["proj"] lockedTree
                    (findConfigs ["proj"] lockedTree).1 eq_refl)) ["a"]);
      solve_hasFile.
Defined.

(** ** Errors during the scan *)

(** An error that stops the walk is not a permission error, and is the
    error of a node that the scan reaches. *)
Lemma walk_error (n : node) (p : path) (st st' : gmap path configLocation) (e : goerror) :
  walk visit p n st = (st', WalkErr e) →
  isPermission e = false ∧ ∃ rel n', n' ∈ entered p n rel ∧ errorAt n' = Some e.
Proof.
  revert p st st'.
  induction n as [|e0|readErr entries IH] using node_induction; intros p st st'.
  - intros Hw. pose proof (walk_file_result p st) as Hr. by rewrite Hw in Hr.
  - change (walk visit p (NoStat e0) st) with (visit p None (Some e0) st).
    rewrite visit_error. destruct (isPermission e0) eqn:Hperm; intros [= <- <-].
    split; [done|]. exists [], (NoStat e0). by rewrite entered_nil.
  - destruct readErr as [e0|].
    { rewrite walk_unreadable, visit_error.
      destruct (isPermission e0) eqn:Hperm; intros [= <- <-].
      split; [done|]. exists [], (Dir (Some e0) entries). by rewrite entered_nil. }
    rewrite walk_dir, visit_dir. destruct (isPruned (filepathBase p)) eqn:Hp; [done|].
    revert st. induction IH as [|[name child] rest Hchild _ IHrest]; intros st; [done|].
    simpl. destruct (walk visit (filepathJoin p name) child st) as [st1 r1] eqn:Hw.
    assert (walkEntries visit p rest st1 = (st', WalkErr e) →
            isPermission e = false
            ∧ ∃ rel n', n' ∈ entered p (Dir None ((name, child) :: rest)) rel
                        ∧ errorAt n' = Some e) as Hrest.
    { intros (Hperm & [|name' rel] & n' & Hin & Herr)%IHrest; split; try done.
      - apply entered_nil in Hin as ->. done.
      - apply entered_cons in Hin as (? & child' & [= <-] & _ & Hentry & Hin).
        exists (name' :: rel), n'. split; [|done].
        apply entered_cons. exists ((name, child) :: rest), child'.
        repeat split; try done. by right. }
    destruct r1 as [| |e1]; [done| |].
    + destruct (returnsSkip child); [done|done].
    + intros [= <- <-]. destruct (Hchild _ _ _ Hw) as (Hperm & rel & n' & Hin & Herr).
      split; [done|]. exists (name :: rel), n'. split; [|done].
      apply entered_cons. exists ((name, child) :: rest), child.
      repeat split; try done. by left.
Qed.

(** A node that the scan reaches and that fails with an error other than
    a permission error stops the walk. *)
Lemma walk_hard (n n' : node) (rel : list string) (p : path)
    (st : gmap path configLocation) :
  n' ∈ entered p n rel → failsHard n' = true →
  ∃ e, (walk visit p n st).2 = WalkErr e.
Proof.
  revert rel p st.
  induction n as [|e0|readErr entries IH] using node_induction;
    intros rel p st Hin Hhard.
  - destruct rel; [apply entered_nil in Hin as ->; done|].
    by apply entered_cons in Hin as (? & ? & ? & _).
  - destruct rel; [|by apply entered_cons in Hin as (? & ? & ? & _)].
    apply entered_nil in Hin as ->. simpl in Hhard. apply negb_true_iff in Hhard.
    change (walk visit p (NoStat e0) st) with (visit p None (Some e0) st).
    rewrite visit_error, Hhard. by eexists.
  - destruct rel as [|name rel].
    { apply entered_nil in Hin as ->. destruct readErr as [e0|]; [|done].
      simpl in Hhard. apply negb_true_iff in Hhard.
      rewrite walk_unreadable, visit_error, Hhard. by eexists. }
    apply entered_cons in Hin as (? & child & [= -> <-] & Hp & Hentry & Hin).
    rewrite walk_dir, visit_dir, Hp. clear Hp.
    revert st. induction IH as [|[name0 child0] rest Hchild _ IHrest]; intros st.
    { by apply elem_of_nil in Hentry. }
    cbn [snd] in Hchild.
    simpl. destruct (walk visit (filepathJoin p name0) child0 st) as [st1 r1] eqn:Hw.
    destruct r1 as [| |e1]; [| |by eexists].
    + apply elem_of_cons in Hentry as [[= <- <-]|Hentry]; [|by apply IHrest].
      destruct (Hchild rel (filepathJoin p name) st Hin Hhard) as [e He].
      rewrite Hw in He. done.
    + apply elem_of_cons in Hentry as [[= <- <-]|Hentry].
      * destruct (Hchild rel (filepathJoin p name) st Hin Hhard) as [e He].
        rewrite Hw in He. done.
      * destruct (returnsSkip child0) eqn:Hskip; [|by apply IHrest].
        destruct child0; try discriminate.
Qed.

(** A node that fails with a permission error is skipped like an empty
    directory: the state after it is the same, and the walk goes on or
    stops alike. *)
Lemma walk_withoutForbidden (n : node) (p : path) (st : gmap path configLocation) :
  (walk visit p (withoutForbidden n) st).1 = (walk visit p n st).1
  ∧ walkError (walk visit p (withoutForbidden n) st).2
    = walkError (walk visit p n st).2.
Proof.
  revert p st.
  induction n as [|e0|readErr entries IH] using node_induction; intros p st.
  - done.
  - simpl withoutForbidden. destruct (isPermission e0) eqn:Hperm; [|done].
    rewrite walk_dir, visit_dir.
    change (walk visit p (NoStat e0) st) with (visit p None (Some e0) st).
    rewrite visit_error, Hperm. by destruct (isPruned (filepathBase p)).
  - destruct readErr as [e0|].
    { simpl withoutForbidden. destruct (isPermission e0) eqn:Hperm; [|done].
      rewrite walk_dir, visit_dir, walk_unreadable, visit_error, Hperm.
      by destruct (isPruned (filepathBase p)). }
    simpl withoutForbidden. rewrite !walk_dir, visit_dir.
    destruct (isPruned (filepathBase p)); [done|].
    revert st. induction IH as [|[name child] rest Hchild _ IHrest]; intros st; [done|].
    simpl map. simpl walkEntries.
    destruct (Hchild (filepathJoin p name) st) as [Hst Herr]. cbn [snd] in Hst, Herr.
    destruct (walk visit (filepathJoin p name) (withoutForbidden child) st)
      as [st1 r1] eqn:Hw1.
    destruct (walk visit (filepathJoin p name) child st) as [st2 r2] eqn:Hw2.
    cbn [fst snd] in Hst, Herr. subst st2.
    assert (returnsSkip (withoutForbidden child) = returnsSkip child) as Hskip.
    { destruct child as [|[e1|] entries1|e1]; simpl; try done;
        by destruct (isPermission e1). }
    rewrite Hskip.
    destruct r1 as [| |e1], r2 as [| |e2]; simpl in Herr; try done;
      try (by injection Herr as ->);
      try (destruct (returnsSkip child) eqn:Hrs; [by destruct child|]);
      apply IHrest.
Qed.

(** The scan of [lockedTree] goes past [locked] and records [z]; the scan
    of [brokenTree] stops at [locked] with its error, and has not seen
    [z]. *)
Example locked_and_broken :
  (findConfigs ["proj"] lockedTree).2 = None
  ∧ (findConfigs ["proj"] lockedTree).1 !! ["proj"; "z"]
    = Some (ConfigLocation ["proj"; "z"] true false)
  ∧ (findConfigs ["proj"] lockedTree).1 !! ["proj"; "locked"] = None
  ∧ (findConfigs ["proj"] brokenTree).2 = Some (GoError false "input/output error")
  ∧ (findConfigs ["proj"] brokenTree).1 !! ["proj"; "z"] = None.
Proof. repeat split; vm_compute; reflexivity. Qed.

(** * Further properties of the code *)

Set Warnings "-clear-no-such-hyp".

(** ** The patcher *)

(** X1: the patch leaves every top-level key other than [formatter] and
    [javascript] with the value it had, and the keys of the patched
    document are those of the input together with these two. *)
Theorem patch_keeps_other_keys (config : gmap string json) :
  (∀ k, k ≠ "formatter" → k ≠ "javascript" →
        patchDocument config !! k = config !! k)
  ∧ dom (patchDocument config) = dom config ∪ {[ "formatter"; "javascript" ]}.
Proof.
  split.
  - intros k Hf Hj. unfold patchDocument.
    by rewrite patchJavascript_other, patchFormatter_other.
  - unfold patchDocument, patchJavascript, patchFormatter.
    destruct (config !! "formatter") as [[]|];
      (match goal with
       | |- context [?m !! "javascript"] => destruct (m !! "javascript") as [[]|]
       end);
      rewrite !dom_insert_L; set_solver.
Qed.

Lemma patch_keeps_other_keys_witness :
  patchDocument formatterDoc !! "linter" = formatterDoc !! "linter".
Proof.
  apply (proj1 (patch_keeps_other_keys formatterDoc) "linter"); discriminate.
Defined.

(** X2: when the input has a [javascript] object, the patched document has
    that object with [parser] replaced by the object that holds only
    [unsafeParameterDecoratorsEnabled = true], and every other key of
    [javascript] as it was; when [javascript] is absent or not an object it
    is the object that holds only that [parser]. *)
Theorem patch_javascript_section (config : gmap string json) :
  (∀ js, config !! "javascript" = Some (JObject js) →
     ∃ js',
       patchDocument config !! "javascript" = Some (JObject js')
       ∧ js' !! "parser"
         = Some (JObject {[ "unsafeParameterDecoratorsEnabled" := JBool true ]})
       ∧ ∀ k, k ≠ "parser" → js' !! k = js !! k)
  ∧ ((∀ js, config !! "javascript" ≠ Some (JObject js)) →
     patchDocument config !! "javascript"
     = Some (JObject {[ "parser" :=
          JObject {[ "unsafeParameterDecoratorsEnabled" := JBool true ]} ]})).
Proof.
  assert (patchFormatter config !! "javascript" = config !! "javascript") as Hjs
    by (by apply patchFormatter_other).
  unfold patchDocument, patchJavascript. rewrite Hjs. split.
  - intros js ->.
    exists (<["parser" :=
               JObject {[ "unsafeParameterDecoratorsEnabled" := JBool true ]}]> js).
    rewrite !lookup_insert_eq. split; [done|split; [done|]].
    intros k Hk. by rewrite lookup_insert_ne.
  - intros Hno. destruct (config !! "javascript") as [[]|] eqn:E;
      try (by rewrite lookup_insert_eq).
    by destruct (Hno fields).
Qed.

Lemma patch_javascript_section_witness :
  patchDocument formatterDoc !! "javascript"
  = Some (JObject {[ "parser" :=
       JObject {[ "unsafeParameterDecoratorsEnabled" := JBool true ]} ]}).
Proof.
  apply (proj2 (patch_javascript_section formatterDoc)).
  intros js. vm_compute. discriminate.
Defined.

(** ** The scanner *)

Lemma wellFlagged_lookup (locations : gmap path configLocation) (d : path) :
  wellFlagged locations →
  locations !! d
  = if eslintAt locations d || prettierAt locations d
    then Some (ConfigLocation d (eslintAt locations d) (prettierAt locations d))
    else None.
Proof.
  intros Hwf. unfold eslintAt, prettierAt.
  destruct (locations !! d) as [[d' e p]|] eqn:Hd; [|done].
  destruct (Hwf d _ Hd) as [Hdir Hflag]. simpl in *. subst d'. by rewrite Hflag.
Qed.

(** X4: the result of a scan that returns no error depends only on which
    paths hold a file that the scan reaches: two trees with the same such
    paths give the same records.  In particular the order in which a
    directory lists its entries does not matter. *)
Theorem scan_depends_on_reached_files (root : path) (tree1 tree2 : node) :
  (∀ rel, File ∈ entered root tree1 rel ↔ File ∈ entered root tree2 rel) →
  (findConfigs root tree1).2 = None →
  (findConfigs root tree2).2 = None →
  findConfigs root tree1 = findConfigs root tree2.
Proof.
  intros Hsame Hok1 Hok2.
  assert (∀ names d, classifiedBy names root tree1 d ↔ classifiedBy names root tree2 d)
    as Hclass.
  { intros names d. unfold classifiedBy. split; intros (rel & Hin & Hd);
      exists rel; (split; [by apply Hsame|done]). }
  assert (∀ d, eslintAt (findConfigs root tree1).1 d = eslintAt (findConfigs root tree2).1 d)
    as He.
  { intros d. apply eq_true_iff_eq. split; intros Hd.
    - apply findConfigs_eslint; [done|]. apply Hclass. by apply findConfigs_eslint.
    - apply findConfigs_eslint; [done|]. apply Hclass. by apply findConfigs_eslint. }
  assert (∀ d, prettierAt (findConfigs root tree1).1 d
               = prettierAt (findConfigs root tree2).1 d) as Hp.
  { intros d. apply eq_true_iff_eq. split; intros Hd.
    - apply findConfigs_prettier; [done|]. apply Hclass. by apply findConfigs_prettier.
    - apply findConfigs_prettier; [done|]. apply Hclass. by apply findConfigs_prettier. }
  pose proof (findConfigs_wellFlagged root tree1) as Hwf1.
  pose proof (findConfigs_wellFlagged root tree2) as Hwf2.
  destruct (findConfigs root tree1) as [m1 r1], (findConfigs root tree2) as [m2 r2].
  simpl in *. subst r1 r2. f_equal. apply map_eq. intros d.
  by rewrite (wellFlagged_lookup m1 d Hwf1), (wellFlagged_lookup m2 d Hwf2), He, Hp.
Qed.

(** Listing the entries of the root in another order reaches the same
    files. *)
Lemma entered_file_perm (p : path) (entries1 entries2 : list (string * node))
    (rel : list string) :
  entries1 ≡ₚ entries2 →
  File ∈ entered p (Dir None entries1) rel ↔ File ∈ entered p (Dir None entries2) rel.
Proof.
  intros Hperm. destruct rel as [|name rel].
  - rewrite !entered_nil. done.
  - rewrite !entered_cons. split.
    + intros (? & child & [= <-] & Hp & Hin & Hrel).
      exists entries2, child. repeat split; try done.
      by apply (elem_of_Permutation_proper _ _ _ Hperm).
    + intros (? & child & [= <-] & Hp & Hin & Hrel).
      exists entries1, child. repeat split; try done.
      by apply (elem_of_Permutation_proper _ _ _ Hperm).
Qed.

Lemma scan_depends_on_reached_files_witness :
  findConfigs ["proj"] scenarioTree = findConfigs ["proj"] scenarioTreeSwapped.
Proof.
  apply scan_depends_on_reached_files.
  - intros rel. apply entered_file_perm, perm_swap.
  - reflexivity.
  - reflexivity.
Defined.

(** X5: a root that is not a directory is given to the callback as a file:
    the scan returns no error, and records the directory that holds the
    root, with the flag of each table that has the base name of the
    root.  The name of that directory is not looked at. *)
Theorem scan_of_a_file (root : path) :
  (findConfigs root File).2 = None
  ∧ ∀ d,
      eslintAt (findConfigs root File).1 d
      = bool_decide (d = filepathDir root)
        && slicesContains eslintConfigFiles (filepathBase root)
      ∧ prettierAt (findConfigs root File).1 d
        = bool_decide (d = filepathDir root)
          && slicesContains prettierConfigFiles (filepathBase root).
Proof.
  unfold findConfigs, Walk.
  change (walk visit root File ∅)
    with (visit root (Some (FileInfo (filepathBase root) false)) None ∅).
  destruct (visit_file root (filepathBase root) ∅) as (st & -> & He & Hp).
  split; [done|]. intros d. cbn [fst]. rewrite He, Hp.
  by rewrite eslintAt_empty, prettierAt_empty.
Qed.

(** A configuration file given as the root is recorded under its
    directory even when that directory has a pruned name. *)
Example scan_of_a_file_in_build :
  (findConfigs ["proj"; "build"; ".eslintrc.json"] File).1 !! ["proj"; "build"]
  = Some (ConfigLocation ["proj"; "build"] true false).
Proof. vm_compute. reflexivity. Qed.

(** X6: a root directory whose own name is pruned is skipped as a whole:
    whatever it holds, the scan returns no record and no error. *)
Theorem pruned_root_scans_nothing (root : path) (entries : list (string * node)) :
  isPruned (filepathBase root) = true →
  findConfigs root (Dir None entries) = (∅, None).
Proof.
  intros Hp. unfold findConfigs, Walk. by rewrite walk_dir, visit_dir, Hp.
Qed.

Lemma pruned_root_scans_nothing_witness :
  findConfigs ["proj"; "dist"] (Dir None [ (".eslintrc.json", File) ]) = (∅, None).
Proof. apply pruned_root_scans_nothing. reflexivity. Defined.

(** ** The main loop *)

(** Every case of [migrateLocation]: the test for the file, the creation,
    the two flags, the results of the commands, the result of the patch. *)
Ltac migrate_cases d loc w :=
  unfold migrateLocation, migrateEslintConfig, migratePrettierConfig; run_unfold;
  set (biome := filepathJoin d "biome.json");
  destruct (osStat biome w) as [statErr|] eqn:Hstat; simpl;
  [destruct (osWriteFile biome minimalBiomeConfig w) as [w1 [createErr|]] eqn:Hcreate;
   simpl|];
  try (destruct (hasEslint loc) eqn:Heslint, (hasPrettier loc) eqn:Hprettier; simpl;
       repeat match goal with
       | |- context [cmdRun ?a ?b ?c] =>
           let w2 := fresh "w" in
           let Hcmd := fresh "Hcmd" in
           destruct (cmdRun a b c) as [w2 [?|]] eqn:Hcmd; simpl
       end;
       match goal with
       | |- context [patchBiomeConfig ?p ?x] =>
           let Hp := fresh "Hp" in
           destruct (patchBiomeConfig p x) as [[? lp] [[?|]|?]] eqn:Hp;
           pose proof Hp as Hlog;
           apply patchBiomeConfig_log in Hlog as [->|[? ->]]
       end; simpl).

Section Locations.
Context {W : Type} `{Host W}.

Lemma mapRange_lookup (i : nat) (locations : gmap path configLocation)
    (d : path) (loc : configLocation) :
  (d, loc) ∈ mapRange i locations ↔ locations !! d = Some loc.
Proof.
  rewrite (elem_of_Permutation_proper _ _ _ (mapRange_perm i locations)).
  apply elem_of_map_to_list.
Qed.

Lemma forEach_log_elem {A : Type} (P : event → Prop) (items : list A)
    (body : A → Run unit) :
  (∀ x (w w' : W) log r, x ∈ items → body x w = (w', log, r) → Forall P log) →
  ∀ (w w' : W) log r, forEach items body w = (w', log, r) → Forall P log.
Proof.
  induction items as [|x rest IH]; intros Hbody w w' log r.
  - simpl. run_unfold. intros [= <- <- <-]. constructor.
  - simpl. run_unfold.
    destruct (body x w) as [[w1 log1] [[]|reason]] eqn:Hx.
    + destruct (forEach rest body w1) as [[w2 log2] r2] eqn:Hrest.
      intros [= <- <- <-]. apply Forall_app. split.
      * eapply Hbody; [by left|done].
      * eapply IH; [|done]. intros. eapply Hbody; [by right|done].
    + intros [= <- <- <-]. eapply Hbody; [by left|done].
Qed.

(** A loop that ends in a panic ends in the panic of one of its bodies. *)
Lemma forEach_panic {A : Type} (items : list A) (body : A → Run unit)
    (w w' : W) log reason :
  forEach items body w = (w', log, Panicked reason) →
  ∃ x w0 before logx,
    x ∈ items ∧ body x w0 = (w', logx, Panicked reason) ∧ log = before ++ logx.
Proof.
  revert w log. induction items as [|x rest IH]; intros w log.
  - simpl. run_unfold. done.
  - simpl. run_unfold.
    destruct (body x w) as [[w1 log1] [[]|reason1]] eqn:Hx.
    + destruct (forEach rest body w1) as [[w2 log2] r2] eqn:Hrest.
      intros [= <- <- ->].
      destruct (IH _ _ Hrest) as (y & w0 & before & logy & Hy & Hrun & ->).
      exists y, w0, (log1 ++ before), logy.
      split; [by right|]. split; [done|]. by rewrite app_assoc.
    + intros [= <- <- <-]. exists x, w, [], log1. split; [by left|done].
Qed.

Lemma patchBiomeConfig_panic (p : path) (w w' : W) log reason :
  patchBiomeConfig p w = (w', log, Panicked reason) →
  w' = w ∧ log = [EReadFile p] ∧ reason = "assignment to entry in nil map"
  ∧ ∃ data, osReadFile p w = inr data ∧ jsonUnmarshal data = inr None.
Proof.
  unfold patchBiomeConfig. run_unfold.
  destruct (osReadFile p w) as [err|data] eqn:Hread; simpl; [done|].
  destruct (jsonUnmarshal data) as [err|[config|]] eqn:Hdec; simpl; [done| |].
  - destruct (jsonMarshalIndent (patchDocument config)) as [err|output]; simpl; [done|].
    by destruct (osWriteFile p output w).
  - intros [= <- <- <-]. repeat split; try done. by exists data.
Qed.

Lemma migrateLocation_from (d : path) (loc : configLocation) (w w' : W) log r :
  migrateLocation d loc w = (w', log, r) → Forall (fromLocation d) log.
Proof.
  migrate_cases d loc w; intros [= <- <- <-];
    repeat (apply Forall_cons; split;
            [simpl; first [done | split; [done|]; ((by left) || (by right))]|]);
    apply Forall_nil_2.
Qed.

Lemma migrateLocation_panic (d : path) (loc : configLocation) (w w' : W) log reason :
  migrateLocation d loc w = (w', log, Panicked reason) →
  reason = "assignment to entry in nil map"
  ∧ last log = Some (EReadFile (filepathJoin d "biome.json"))
  ∧ ∃ data, osReadFile (filepathJoin d "biome.json") w' = inr data
            ∧ jsonUnmarshal data = inr None.
Proof.
  migrate_cases d loc w; intros [= <- <- <-];
    match goal with
    | Hp : patchBiomeConfig _ _ = _ |- _ =>
        apply patchBiomeConfig_panic in Hp as (-> & Hl & -> & data & Hread & Hdec)
    end;
    try discriminate Hl;
    (split; [done|split; [done|by exists data]]).
Qed.
End Locations.

Section Runs.
Context {W : Type} `{Host W}.

(** The run of [main] once the scan has found something. *)
Lemma main_run (inputDir : string) (dryRun : bool) (w : W) (root : path)
    (locations : gmap path configLocation) :
  inputDir ≠ "" → filepathAbs inputDir w = inr root →
  findConfigs root (hostTree root w) = (locations, None) → locations ≠ ∅ →
  main inputDir dryRun w
  = let '(w2, log2, r2) :=
      forEach (mapRange 1 locations) (processLocation dryRun) w in
    (w2,
     EWalk root :: EPrint (MsgFound (size locations))
       :: concat (map listingOf (mapRange 0 locations))
       ++ log2 ++ match r2 with Returned _ => [EPrint MsgDone] | Panicked _ => [] end,
     match r2 with Returned _ => Returned 0%Z | Panicked reason => Panicked reason end).
Proof.
  intros Hinput Habs Hscan Hne. unfold main.
  destruct (String.eqb_spec inputDir "") as [|_]; [done|].
  run_unfold. rewrite Habs, Hscan.
  destruct (decide (size locations = 0)) as [Hsize|_];
    [by apply map_size_empty_iff in Hsize|].
  rewrite (forEach_report printLocation _ printLocation_report).
  destruct (forEach (mapRange 1 locations) (processLocation dryRun) w)
    as [[w2 log2] [[]|reason]]; simpl; by rewrite ?app_nil_r.
Qed.

Lemma fromLocation_confined (locations : gmap path configLocation) (d : path) (e : event) :
  is_Some (locations !! d) → fromLocation d e → confinedTo locations e.
Proof.
  intros Hd. destruct e as [m| | | | | |]; simpl; try done; try (intros ->; eauto).
  intros [-> Hargs]. done.
Qed.

Lemma processLocation_from (dryRun : bool) (d : path) (loc : configLocation)
    (w w' : W) log r :
  processLocation dryRun (d, loc) w = (w', log, r) →
  Forall (λ e, (∃ m, e = EPrint m ∧ ∀ d' flags, m ≠ MsgLocation d' flags)
               ∨ (dryRun = false ∧ fromLocation d e)) log.
Proof.
  destruct dryRun.
  - rewrite processLocation_dry. intros [= <- <- <-]. apply Forall_forall.
    intros e He. left. unfold dryReport in He. simpl in He.
    destruct (hasEslint loc), (hasPrettier loc); simpl in He;
      decompose_list_elem_of; subst; eauto.
  - simpl. intros Hrun%migrateLocation_from.
    eapply Forall_impl; [done|]. intros e He. by right.
Qed.

(** X7: the exit status of [main], for every host and whatever happens in
    the locations: under one of the three conditions of [fatal] the status
    is 1 and the machine is as it was; otherwise the status is 0, unless
    the run ends in a panic. *)
Theorem exit_status (inputDir : string) (dryRun : bool) (w : W) :
  (fatal inputDir w →
   ∃ log, main inputDir dryRun w = (w, log, Returned 1%Z)
          ∧ Forall (λ e, mutates e = false) log)
  ∧ (¬ fatal inputDir w →
     ∃ w' log r, main inputDir dryRun w = (w', log, r)
                 ∧ (r = Returned 0%Z ∨ ∃ reason, r = Panicked reason)).
Proof.
  split; [|apply main_exit_status].
  unfold fatal, main. destruct (String.eqb_spec inputDir "") as [->|Hne].
  { intros _. eexists. split; [reflexivity|]. by repeat constructor. }
  run_unfold. destruct (filepathAbs inputDir w) as [err|root].
  { intros _. eexists. split; [reflexivity|]. by repeat constructor. }
  destruct (findConfigs root (hostTree root w)) as [locations [err|]] eqn:Hscan.
  { intros _. eexists. split; [reflexivity|]. by repeat constructor. }
  intros [?|[[? ?]|(root' & err & Hroot & Herr)]]; try done.
  injection Hroot as <-. rewrite Hscan in Herr. done.
Qed.

(** X8: a run of [main] can only end in a panic when it is not a dry run
    and the [biome.json] of one of the locations found decodes to a [nil]
    map: the panic is the assignment into that map, and the last call of
    the run is the read of that file. *)
Theorem only_nil_map_panics (inputDir : string) (dryRun : bool) (w w' : W) log reason :
  main inputDir dryRun w = (w', log, Panicked reason) →
  dryRun = false
  ∧ reason = "assignment to entry in nil map"
  ∧ ∃ root d data,
      filepathAbs inputDir w = inr root
      ∧ is_Some ((findConfigs root (hostTree root w)).1 !! d)
      ∧ last log = Some (EReadFile (filepathJoin d "biome.json"))
      ∧ osReadFile (filepathJoin d "biome.json") w' = inr data
      ∧ jsonUnmarshal data = inr None.
Proof.
  destruct (String.eqb_spec inputDir "") as [->|Hinput].
  { unfold main. simpl. run_unfold. done. }
  destruct (filepathAbs inputDir w) as [err|root] eqn:Habs.
  { unfold main. destruct (String.eqb_spec inputDir "") as [|_]; [done|].
    run_unfold. rewrite Habs. done. }
  destruct (findConfigs root (hostTree root w)) as [locations [err|]] eqn:Hscan.
  { unfold main. destruct (String.eqb_spec inputDir "") as [|_]; [done|].
    run_unfold. rewrite Habs, Hscan. done. }
  destruct (decide (locations = ∅)) as [->|Hne].
  { unfold main. destruct (String.eqb_spec inputDir "") as [|_]; [done|].
    run_unfold. rewrite Habs, Hscan. done. }
  rewrite (main_run inputDir dryRun w root locations) by done.
  destruct (forEach (mapRange 1 locations) (processLocation dryRun) w)
    as [[w2 log2] [[]|reason2]] eqn:Hloop; [done|].
  intros [= <- <- <-].
  apply forEach_panic in Hloop as ([d loc] & w0 & before & logx & Hin & Hrun & ->).
  apply mapRange_lookup in Hin.
  destruct dryRun; [by rewrite processLocation_dry in Hrun|].
  simpl in Hrun. apply migrateLocation_panic in Hrun as (-> & Hlast & data & Hread & Hdec).
  split; [done|split; [done|]]. exists root, d, data.
  split; [done|]. split; [rewrite Hscan; simpl; by rewrite Hin|]. split; [|done].
  rewrite app_nil_r, !app_comm_cons, !app_assoc. by rewrite last_app, Hlast.
Qed.

(** X9: a run of [main] only touches what the scan has found: every file
    it tests, reads or writes is the [biome.json] of a directory of the
    scan result, every process it starts is one of the two migration
    commands, run in such a directory, and it removes nothing. *)
Theorem run_confined_to_locations (inputDir : string) (dryRun : bool)
    (w w' : W) (root : path) log r :
  filepathAbs inputDir w = inr root →
  main inputDir dryRun w = (w', log, r) →
  Forall (confinedTo (findConfigs root (hostTree root w)).1) log.
Proof.
  intros Habs. destruct (String.eqb_spec inputDir "") as [->|Hinput].
  { unfold main. simpl. run_unfold. intros [= <- <- <-]. by repeat constructor. }
  destruct (findConfigs root (hostTree root w)) as [locations [err|]] eqn:Hscan.
  { unfold main. destruct (String.eqb_spec inputDir "") as [|_]; [done|].
    run_unfold. rewrite Habs, Hscan. intros [= <- <- <-]. by repeat constructor. }
  destruct (decide (locations = ∅)) as [->|Hne].
  { unfold main. destruct (String.eqb_spec inputDir "") as [|_]; [done|].
    run_unfold. rewrite Habs, Hscan. intros [= <- <- <-]. by repeat constructor. }
  rewrite (main_run inputDir dryRun w root locations) by done.
  destruct (forEach (mapRange 1 locations) (processLocation dryRun) w)
    as [[w2 log2] r2] eqn:Hloop.
  intros [= <- <- <-]. simpl.
  apply (forEach_log_elem (confinedTo locations)) in Hloop.
  - repeat (apply Forall_cons; split; [done|]).
    apply Forall_app. split.
    { apply Forall_forall. intros e He.
      apply list_elem_of_In, in_concat in He as (l & Hl & He).
      apply in_map_iff in Hl as (entry & <- & _).
      apply list_elem_of_In, list_elem_of_singleton in He as ->. done. }
    apply Forall_app. split; [done|]. destruct r2; by repeat constructor.
  - intros [d loc] w0 w1 logx rx Hin%mapRange_lookup Hrun%processLocation_from.
    eapply Forall_impl; [done|]. intros e [(m & -> & _)|[_ He]]; [done|].
    eapply fromLocation_confined; [|done]. by rewrite Hin.
Qed.


(** X11: when there is no [biome.json] and the skeleton cannot be
    written, the location is given up: the error is printed, no migration
    is started, nothing is patched, and the loop goes on with the next
    location. *)
Theorem creation_failure_abandons_location (d : path) (loc : configLocation)
    (rest : list (path * configLocation)) (w w1 : W) (statErr createErr : goerror) :
  osStat (filepathJoin d "biome.json") w = Some statErr →
  osWriteFile (filepathJoin d "biome.json") minimalBiomeConfig w = (w1, Some createErr) →
  forEach ((d, loc) :: rest) (processLocation false) w
  = let '(w2, log2, r2) := forEach rest (processLocation false) w1 in
    (w2,
     [ EPrint (MsgMigrating d); EStat (filepathJoin d "biome.json");
       EWriteFile (filepathJoin d "biome.json") minimalBiomeConfig;
       EPrint (MsgCreateError createErr) ] ++ log2,
     r2).
Proof.
  intros Hstat Hcreate. simpl. unfold migrateLocation. run_unfold.
  rewrite Hstat. simpl. rewrite Hcreate. simpl.
  by destruct (forEach rest (processLocation false) w1) as [[w2 log2] r2].
Qed.

(** X12: when the scan finds nothing, [main] prints that it found nothing
    and ends with status 0, in a dry run or not, without touching the
    machine. *)
Theorem no_configs_found (inputDir : string) (dryRun : bool) (w : W) (root : path) :
  inputDir ≠ "" → filepathAbs inputDir w = inr root →
  findConfigs root (hostTree root w) = (∅, None) →
  main inputDir dryRun w = (w, [EWalk root; EPrint MsgNoConfigs], Returned 0%Z).
Proof.
  intros Hinput Habs Hscan. unfold main.
  destruct (String.eqb_spec inputDir "") as [|_]; [done|].
  run_unfold. by rewrite Habs, Hscan.
Qed.

(** X13: a dry run prints, for every record of the scan, its line in the
    list of locations and its report, between the count and the closing
    reminder; the flags listed are those of the record, [eslint] before
    [prettier], and never none. *)
Theorem dry_run_reports_every_location (inputDir : string) (w : W) (root d : path)
    (locations : gmap path configLocation) (loc : configLocation) :
  inputDir ≠ "" → filepathAbs inputDir w = inr root →
  findConfigs root (hostTree root w) = (locations, None) →
  locations !! d = Some loc →
  main inputDir true w
  = (w,
     EWalk root :: EPrint (MsgFound (size locations))
       :: concat (map listingOf (mapRange 0 locations))
       ++ concat (map dryReport (mapRange 1 locations)) ++ [EPrint MsgDone],
     Returned 0%Z)
  ∧ listingOf (d, loc) ⊆ concat (map listingOf (mapRange 0 locations))
  ∧ dryReport (d, loc) ⊆ concat (map dryReport (mapRange 1 locations))
  ∧ listingOf (d, loc) ≠ [EPrint (MsgLocation d [])].
Proof.
  intros Hinput Habs Hscan Hd.
  assert (locations ≠ ∅) as Hne by (intros ->; by rewrite lookup_empty in Hd).
  rewrite (main_run inputDir true w root locations) by done.
  rewrite (forEach_report (processLocation true) _ processLocation_dry).
  split; [done|]. split; [|split].
  - intros e He. apply list_elem_of_In, in_concat. exists (listingOf (d, loc)).
    split; [|by apply list_elem_of_In]. apply in_map, list_elem_of_In.
    by apply mapRange_lookup.
  - intros e He. apply list_elem_of_In, in_concat. exists (dryReport (d, loc)).
    split; [|by apply list_elem_of_In]. apply in_map, list_elem_of_In.
    by apply mapRange_lookup.
  - pose proof (findConfigs_wellFlagged root (hostTree root w) d loc) as Hwf.
    rewrite Hscan in Hwf. destruct (Hwf Hd) as [_ Hflag].
    unfold listingOf. simpl.
    destruct (hasEslint loc), (hasPrettier loc); done.
Qed.
End Runs.

Lemma run_result {W : Type} `{Host W} {A : Type} (m : Run A) (w : W) :
  m w = ((m w).1.1, (m w).1.2, (m w).2).
Proof. by destruct (m w) as [[w' log] r]. Qed.

Lemma exit_status_witness :
  ∃ log, main "" false freshProject = (freshProject, log, Returned 1%Z)
         ∧ Forall (λ e, mutates e = false) log.
Proof.
  apply (proj1 (exit_status "" false freshProject)). left. reflexivity.
Defined.

Lemma only_nil_map_panics_witness :
  ∃ root d data,
    filepathAbs "proj" nullProject = inr root
    ∧ is_Some ((findConfigs root (hostTree root nullProject)).1 !! d)
    ∧ last (main "proj" false nullProject).1.2
      = Some (EReadFile (filepathJoin d "biome.json"))
    ∧ osReadFile (filepathJoin d "biome.json") (main "proj" false nullProject).1.1
      = inr data
    ∧ jsonUnmarshal data = inr None.
Proof.
  refine (proj2 (proj2 (only_nil_map_panics "proj" false nullProject
           (main "proj" false nullProject).1.1 (main "proj" false nullProject).1.2
           "assignment to entry in nil map" _))).
  rewrite (run_result (main "proj" false) nullProject) at 1.
  f_equal.
Defined.

Lemma run_confined_to_locations_witness :
  Forall (confinedTo (findConfigs ["proj"] (dirTree freshProject)).1)
         (main "proj" false freshProject).1.2.
Proof.
  exact (run_confined_to_locations "proj" false freshProject
           (main "proj" false freshProject).1.1 ["proj"]
           (main "proj" false freshProject).1.2
           (main "proj" false freshProject).2
           eq_refl (run_result (main "proj" false) freshProject)).
Defined.


Lemma creation_failure_abandons_location_witness :
  forEach [ (["proj"], ConfigLocation ["proj"] false true) ]
          (processLocation false) (ReadOnly freshProject)
  = (ReadOnly freshProject,
     [ EPrint (MsgMigrating ["proj"]); EStat ["proj"; "biome.json"];
       EWriteFile ["proj"; "biome.json"] minimalBiomeConfig;
       EPrint (MsgCreateError (GoError true "read-only file system")) ],
     Returned tt).
Proof.
  apply (creation_failure_abandons_location ["proj"] _ [] (ReadOnly freshProject)
           (ReadOnly freshProject) (GoError false "no such file or directory")
           (GoError true "read-only file system")); reflexivity.
Defined.

Lemma no_configs_found_witness :
  main "dist" false (Machine ∅ (Dir None [ (".eslintrc.json", File) ]))
  = (Machine ∅ (Dir None [ (".eslintrc.json", File) ]),
     [EWalk ["dist"]; EPrint MsgNoConfigs], Returned 0%Z).
Proof.
  apply (no_configs_found "dist" false _ ["dist"]); [discriminate|reflexivity|].
  vm_compute. reflexivity.
Defined.

Lemma dry_run_reports_every_location_witness :
  listingOf (["proj"; "a"], ConfigLocation ["proj"; "a"] true false)
  ⊆ concat (map listingOf
       (mapRange 0 (findConfigs ["proj"] scenarioTree).1))
  ∧ dryReport (["proj"; "a"], ConfigLocation ["proj"; "a"] true false)
    ⊆ concat (map dryReport (mapRange 1 (findConfigs ["proj"] scenarioTree).1)).
Proof.
  pose proof (dry_run_reports_every_location "proj" (Machine ∅ scenarioTree)
                ["proj"] ["proj"; "a"] (findConfigs ["proj"] scenarioTree).1
                (ConfigLocation ["proj"; "a"] true false)
                ltac:(discriminate) eq_refl eq_refl eq_refl) as (_ & Hl & Hd & _).
  split; assumption.
Defined.

(** ** The paths given to the callback *)

Section Tracing.
Context {St : Type}.
Variable walkFn : path → option fileInfo → option goerror → St → St * walkResult.

Lemma traced_call (p : path) (info : option fileInfo) (err : option goerror)
    (st : St) (seen : list path) :
  traced walkFn p info err (st, seen)
  = (((walkFn p info err st).1, seen ++ [p]), (walkFn p info err st).2).
Proof. unfold traced. simpl. by destruct (walkFn p info err st). Qed.

Lemma walkEntries_preserves (I : St → Prop) :
  (∀ p info err st, I st → I (walkFn p info err st).1) →
  ∀ entries p st, I st → I (walkEntries walkFn p entries st).1.
Proof.
  intros Hfn entries p. induction entries as [|[name child] rest IH]; intros st Hst.
  - done.
  - simpl.
    pose proof (walk_preserves walkFn I Hfn child (filepathJoin p name) st Hst) as H1.
    destruct (walk walkFn (filepathJoin p name) child st) as [st1 [| |e]];
      simpl in *; [by apply IH| |done].
    destruct (returnsSkip child); [done|by apply IH].
Qed.

(** Keeping the list of paths does not change what the walk does. *)
Lemma walk_traced (n : node) (p : path) (st : St) (seen : list path) :
  (walk (traced walkFn) p n (st, seen)).1.1 = (walk walkFn p n st).1
  ∧ (walk (traced walkFn) p n (st, seen)).2 = (walk walkFn p n st).2.
Proof.
  revert p st seen.
  induction n as [|e|readErr entries IH] using node_induction; intros p st seen.
  - change (walk (traced walkFn) p File (st, seen))
      with (traced walkFn p (Some (FileInfo (filepathBase p) false)) None (st, seen)).
    by rewrite traced_call.
  - change (walk (traced walkFn) p (NoStat e) (st, seen))
      with (traced walkFn p None (Some e) (st, seen)).
    by rewrite traced_call.
  - destruct readErr as [e|]; [by rewrite !walk_unreadable, traced_call|].
    rewrite !walk_dir, traced_call.
    destruct (walkFn p (Some (FileInfo (filepathBase p) true)) None st)
      as [st1 [| |e]]; try done.
    cbn [fst snd]. generalize (seen ++ [p]). revert st1.
    induction IH as [|[name child] rest Hchild _ IHrest]; intros st1 seen1; [done|].
    simpl. destruct (Hchild (filepathJoin p name) st1 seen1) as [Hst Hr].
    cbn [snd] in Hst, Hr.
    destruct (walk (traced walkFn) (filepathJoin p name) child (st1, seen1))
      as [[st2 seen2] r2].
    destruct (walk walkFn (filepathJoin p name) child st1) as [st3 r3].
    cbn [fst snd] in Hst, Hr. subst st3 r3.
    destruct r2 as [| |e]; [apply IHrest| |done].
    destruct (returnsSkip child); [done|apply IHrest].
Qed.
End Tracing.

Lemma traced_keeps (q : path) (n : node) (p : path)
    (st : gmap path configLocation) (seen : list path) :
  q ∈ seen → q ∈ (walk (traced visit) p n (st, seen)).1.2.
Proof.
  intros Hq. destruct (traced_walk n p st seen) as (new & -> & _).
  apply elem_of_app. by left.
Qed.

Lemma traced_entries_keep (q : path) (entries : list (string * node)) (p : path)
    (st : gmap path configLocation) (seen : list path) :
  q ∈ seen → q ∈ (walkEntries (traced visit) p entries (st, seen)).1.2.
Proof.
  intros Hq.
  apply (walkEntries_preserves (traced visit) (λ s, q ∈ s.2)); [|done].
  intros p' info err [st' seen'] Hin. rewrite traced_call. simpl in *.
  apply elem_of_app. by left.
Qed.

(** Unless the walk stops on an error, the callback is called on every
    node that the scan reaches. *)
Lemma traced_walk_complete (n n' : node) (rel : list string) (p : path)
    (st : gmap path configLocation) (seen : list path) :
  (∀ e, (walk (traced visit) p n (st, seen)).2 ≠ WalkErr e) →
  n' ∈ entered p n rel →
  p ++ rel ∈ (walk (traced visit) p n (st, seen)).1.2.
Proof.
  revert rel p st seen.
  induction n as [|e0|readErr entries IH] using node_induction;
    intros rel p st seen Hok Hin.
  - destruct rel; [|by apply entered_cons in Hin as (? & ? & ? & _)].
    rewrite app_nil_r.
    change (walk (traced visit) p File (st, seen))
      with (traced visit p (Some (FileInfo (filepathBase p) false)) None (st, seen)).
    rewrite traced_call. simpl. apply elem_of_app. right. by left.
  - destruct rel; [|by apply entered_cons in Hin as (? & ? & ? & _)].
    rewrite app_nil_r.
    change (walk (traced visit) p (NoStat e0) (st, seen))
      with (traced visit p None (Some e0) (st, seen)).
    rewrite traced_call. simpl. apply elem_of_app. right. by left.
  - destruct readErr as [e0|].
    { destruct rel; [|by apply entered_cons in Hin as (? & ? & ? & _)].
      rewrite app_nil_r, walk_unreadable, traced_call. simpl.
      apply elem_of_app. right. by left. }
    revert Hok. rewrite walk_dir, traced_call, visit_dir. cbn [fst snd].
    destruct rel as [|name rel].
    { intros _. rewrite app_nil_r.
      assert (p ∈ seen ++ [p]) as Hp by (apply elem_of_app; right; by left).
      destruct (isPruned (filepathBase p)); [done|].
      by apply traced_entries_keep. }
    apply entered_cons in Hin as (? & child & [= <-] & -> & Hentry & Hin).
    generalize (seen ++ [p]). revert st.
    induction IH as [|[name0 child0] rest Hchild _ IHrest]; intros st seen1 Hok.
    { by apply elem_of_nil in Hentry. }
    cbn [snd] in Hchild. revert Hok. simpl.
    pose proof (Hchild rel (filepathJoin p name0) st seen1) as Hhere.
    pose proof (traced_entries_keep (p ++ name :: rel) rest p) as Hkeep.
    destruct (walk (traced visit) (filepathJoin p name0) child0 (st, seen1))
      as [[st2 seen2] r2] eqn:Hw.
    cbn [fst snd] in Hhere.
    assert ((name, child) = (name0, child0) → (∀ e, r2 ≠ WalkErr e) →
            p ++ name :: rel ∈ seen2) as Hfound.
    { intros [= <- <-] Hr2. specialize (Hhere Hr2 Hin).
      unfold filepathJoin in Hhere. by rewrite <- app_assoc in Hhere. }
    apply elem_of_cons in Hentry as [Heq|Hentry].
    + destruct r2 as [| |e]; intros Hok.
      * apply Hkeep. by apply Hfound.
      * destruct (returnsSkip child0); [|apply Hkeep]; by apply Hfound.
      * by destruct (Hok e).
    + destruct r2 as [| |e]; intros Hok.
      * by apply IHrest.
      * destruct (returnsSkip child0) eqn:Hskip; [|by apply IHrest].
        destruct child0; discriminate.
      * by destruct (Hok e).
Qed.

(** X14: when the scan returns no error, the paths on which the callback
    is called are exactly the paths of the nodes that the scan reaches:
    the root, and everything listed in a directory that is reached, can be
    listed and has a name that is not pruned. *)
Theorem visited_exactly_reached (root : path) (tree : node) :
  (findConfigs root tree).2 = None →
  ∀ q, q ∈ visitedPaths root tree
       ↔ ∃ rel n', q = root ++ rel ∧ n' ∈ entered root tree rel.
Proof.
  intros Hok q. split; [apply visitedPaths_entered|].
  intros (rel & n' & -> & Hin). unfold visitedPaths, Walk.
  pose proof (traced_walk_complete tree n' rel root ∅ []) as Hall.
  destruct (walk_traced visit tree root ∅ []) as [_ Hr].
  unfold findConfigs, Walk in Hok.
  destruct (walk (traced visit) root tree (∅, [])) as [[st seen] r].
  destruct (walk visit root tree ∅) as [st' r']. simpl in *. subst r'.
  apply Hall; [|done]. intros e ->. done.
Qed.

Lemma visited_exactly_reached_witness :
  ["proj"; "b"; "prettier.config.js"] ∈ visitedPaths ["proj"] scenarioTree.
Proof.
  apply (proj2 (visited_exactly_reached ["proj"] scenarioTree eq_refl
                  ["proj"; "b"; "prettier.config.js"])).
  exists ["b"; "prettier.config.js"], File. split; [reflexivity|].
  apply list_elem_of_In. vm_compute. tauto.
Defined.

(** ** Keys of the scan and writes of a migration *)

(** X15: after a scan that returns no error, a directory has a record
    exactly when the scan reaches in it a file whose name is in one of the
    two tables. *)
Theorem scan_keys (root : path) (tree : node) (d : path) :
  (findConfigs root tree).2 = None →
  (is_Some ((findConfigs root tree).1 !! d)
   ↔ classifiedBy eslintConfigFiles root tree d
     ∨ classifiedBy prettierConfigFiles root tree d).
Proof.
  intros Hok.
  pose proof (findConfigs_wellFlagged root tree) as Hwf.
  rewrite (wellFlagged_lookup _ d Hwf).
  destruct (findConfigs_eslint root tree d) as [He1 He2].
  destruct (findConfigs_prettier root tree d) as [Hp1 Hp2].
  destruct (eslintAt (findConfigs root tree).1 d) eqn:He,
    (prettierAt (findConfigs root tree).1 d) eqn:Hp; simpl.
  - split; [auto|by eexists].
  - split; [auto|by eexists].
  - split; [auto|by eexists].
  - split; [by intros [? ?]|]. intros [Hc|Hc].
    + by specialize (He2 Hok Hc).
    + by specialize (Hp2 Hok Hc).
Qed.

Lemma scan_keys_witness :
  is_Some ((findConfigs ["proj"] lockedTree).1 !! ["proj"; "z"])
  ↔ classifiedBy eslintConfigFiles ["proj"] lockedTree ["proj"; "z"]
    ∨ classifiedBy prettierConfigFiles ["proj"] lockedTree ["proj"; "z"].
Proof. apply scan_keys. reflexivity. Defined.

Section Writes.
Context {W : Type} `{Host W}.

End Writes.


(** * The scan stops at the first hard error *)

(** An error that stops the walk is the error of the node on which the
    callback was called last. *)
Lemma traced_walk_error (n : node) (p : path) (st st' : gmap path configLocation)
    (seen seen' : list path) (e : goerror) :
  walk (traced visit) p n (st, seen) = ((st', seen'), WalkErr e) →
  isPermission e = false
  ∧ ∃ rel n', n' ∈ entered p n rel ∧ errorAt n' = Some e
              ∧ last seen' = Some (p ++ rel).
Proof.
  revert p st st' seen seen'.
  induction n as [|e0|readErr entries IH] using node_induction;
    intros p st st' seen seen'.
  - change (walk (traced visit) p File (st, seen))
      with (traced visit p (Some (FileInfo (filepathBase p) false)) None (st, seen)).
    rewrite traced_call.
    destruct (visit_file p (filepathBase p) st) as (st1 & -> & _). done.
  - change (walk (traced visit) p (NoStat e0) (st, seen))
      with (traced visit p None (Some e0) (st, seen)).
    rewrite traced_call, visit_error. cbn [fst snd].
    destruct (isPermission e0) eqn:Hperm; intros [= <- <- <-].
    split; [done|]. exists [], (NoStat e0).
    by rewrite entered_nil, app_nil_r, last_snoc.
  - destruct readErr as [e0|].
    { rewrite walk_unreadable, traced_call, visit_error. cbn [fst snd].
      destruct (isPermission e0) eqn:Hperm; intros [= <- <- <-].
      split; [done|]. exists [], (Dir (Some e0) entries).
      by rewrite entered_nil, app_nil_r, last_snoc. }
    rewrite walk_dir, traced_call, visit_dir. cbn [fst snd].
    destruct (isPruned (filepathBase p)) eqn:Hp; [done|].
    generalize (seen ++ [p]). revert st.
    induction IH as [|[name child] rest Hchild _ IHrest]; intros st seen1; [done|].
    cbn [snd] in Hchild. simpl.
    destruct (walk (traced visit) (filepathJoin p name) child (st, seen1))
      as [[st2 seen2] r2] eqn:Hw.
    assert (walkEntries (traced visit) p rest (st2, seen2) = (st', seen', WalkErr e) →
            isPermission e = false
            ∧ ∃ rel n', n' ∈ entered p (Dir None ((name, child) :: rest)) rel
                        ∧ errorAt n' = Some e ∧ last seen' = Some (p ++ rel)) as Hrest.
    { intros (Hperm & [|name' rel] & n' & Hin & Herr & Hlast)%IHrest; split; try done.
      - apply entered_nil in Hin as ->. done.
      - apply entered_cons in Hin as (? & child' & [= <-] & _ & Hentry & Hin).
        exists (name' :: rel), n'. split; [|done].
        apply entered_cons. exists ((name, child) :: rest), child'.
        repeat split; try done. by right. }
    destruct r2 as [| |e2]; [done| |].
    + destruct (returnsSkip child); [done|done].
    + intros [= <- <- <-].
      destruct (Hchild _ _ _ _ _ Hw) as (Hperm & rel & n' & Hin & Herr & Hlast).
      split; [done|]. exists (name :: rel), n'. split; [|split; [done|]].
      * apply entered_cons. exists ((name, child) :: rest), child.
        repeat split; try done. by left.
      * rewrite Hlast. unfold filepathJoin. by rewrite <- app_assoc.
Qed.

(** C7: a node whose listing or [lstat] fails for want of permission is
    skipped and the scan goes on, with the result it has on the tree where
    that node is an empty directory; a node that the scan reaches and that
    fails in another way makes the scan return an error; and an error that
    the scan returns is never a permission error: it is the error of a
    node that the scan reaches, and the call of the callback on that node
    is the last one, so that the scan stops there. *)
Theorem scan_errors (root : path) (tree : node) :
  findConfigs root tree = findConfigs root (withoutForbidden tree)
  ∧ (∀ rel n, n ∈ entered root tree rel → failsHard n = true →
       ∃ e, (findConfigs root tree).2 = Some e)
  ∧ (∀ e, (findConfigs root tree).2 = Some e →
       isPermission e = false
       ∧ ∃ rel n, n ∈ entered root tree rel ∧ errorAt n = Some e
                  ∧ last (visitedPaths root tree) = Some (root ++ rel)).
Proof.
  split; [|split].
  - unfold findConfigs, Walk.
    destruct (walk_withoutForbidden tree root ∅) as [Hst Herr].
    destruct (walk visit root tree ∅), (walk visit root (withoutForbidden tree) ∅).
    simpl in *. by rewrite Hst, Herr.
  - unfold findConfigs, Walk.
    intros rel n Hin Hhard. destruct (walk_hard tree n rel root ∅ Hin Hhard) as [e He].
    destruct (walk visit root tree ∅) as [st r]. simpl in *. subst r. by exists e.
  - intros e. unfold findConfigs, visitedPaths, Walk.
    destruct (walk_traced visit tree root ∅ []) as [_ Hr].
    destruct (walk (traced visit) root tree (∅, [])) as [[st seen] r] eqn:Hw.
    destruct (walk visit root tree ∅) as [st' r']. simpl in *. subst r'.
    destruct r as [| |e']; simpl; try done. intros [= ->].
    by apply traced_walk_error in Hw.
Qed.

Lemma scan_errors_witness :
  (∃ e, (findConfigs ["proj"] brokenTree).2 = Some e)
  ∧ findConfigs ["proj"] lockedTree
    = findConfigs ["proj"] (withoutForbidden lockedTree)
  ∧ (isPermission (GoError false "input/output error") = false
     ∧ ∃ rel n, n ∈ entered ["proj"] brokenTree rel
                ∧ errorAt n = Some (GoError false "input/output error")
                ∧ last (visitedPaths ["proj"] brokenTree) = Some (["proj"] ++ rel)).
Proof.
  split; [|split].
  - apply (proj1 (proj2 (scan_errors ["proj"] brokenTree)) ["locked"]
             (Dir (Some (GoError false "input/output error")) [ (".eslintrc", File) ])).
    + apply list_elem_of_In. vm_compute. tauto.
    + reflexivity.
  - apply (proj1 (scan_errors ["proj"] lockedTree)).
  - apply (proj2 (proj2 (scan_errors ["proj"] brokenTree))). reflexivity.
Defined.

(** In [brokenTree] the last path given to the callback is [locked]: [z],
    which comes after it, is never looked at. *)
Example broken_scan_stops :
  last (visitedPaths ["proj"] brokenTree) = Some ["proj"; "locked"]
  ∧ ["proj"; "z"] ∉ visitedPaths ["proj"] brokenTree.
Proof.
  replace (visitedPaths ["proj"] brokenTree)
    with [ ["proj"]; ["proj"; "a"]; ["proj"; "a"; ".prettierrc"];
           ["proj"; "a"; "eslint.config.js"]; ["proj"; "locked"] ]
    by (vm_compute; reflexivity).
  split; [reflexivity|]. intros Hin. decompose_list_elem_of; discriminate.
Qed.

(** * Records stand for files that were visited *)

Section VisitedFlags.
Variable names : list string.
Variable flagAt : gmap path configLocation → path → bool.
Hypothesis flag_file : ∀ q name st d,
  flagAt (visit q (Some (FileInfo name false)) None st).1 d
  = flagAt st d || (bool_decide (d = filepathDir q) && slicesContains names name).

(** A flag that a part of the walk sets comes from a call of the callback,
    during that part, on a file with a name of the table. *)
Lemma traced_walk_flags (n : node) (p : path) (st : gmap path configLocation)
    (seen : list path) (d : path) :
  flagAt (walk (traced visit) p n (st, seen)).1.1 d = true →
  flagAt st d = true
  ∨ ∃ rel, p ++ rel ∈ (walk (traced visit) p n (st, seen)).1.2
           ∧ File ∈ entered p n rel
           ∧ filepathDir (p ++ rel) = d ∧ filepathBase (p ++ rel) ∈ names.
Proof.
  revert p st seen.
  induction n as [|e0|readErr entries IH] using node_induction; intros p st seen.
  - change (walk (traced visit) p File (st, seen))
      with (traced visit p (Some (FileInfo (filepathBase p) false)) None (st, seen)).
    rewrite traced_call. cbn [fst snd]. rewrite flag_file.
    intros [Hd|[Hdir Hname]%andb_true_iff]%orb_true_iff; [by left|right].
    apply bool_decide_eq_true in Hdir as ->. apply slicesContains_elem_of in Hname.
    exists []. rewrite app_nil_r, entered_nil. split; [|done].
    apply elem_of_app. right. by left.
  - change (walk (traced visit) p (NoStat e0) (st, seen))
      with (traced visit p None (Some e0) (st, seen)).
    rewrite traced_call, visit_error. by left.
  - destruct readErr as [e0|].
    { rewrite walk_unreadable, traced_call, visit_error. by left. }
    rewrite walk_dir, traced_call, visit_dir. cbn [fst snd].
    destruct (isPruned (filepathBase p)) eqn:Hp; [by left|].
    assert (∀ st1 seen1,
      flagAt (walkEntries (traced visit) p entries (st1, seen1)).1.1 d = true →
      flagAt st1 d = true
      ∨ ∃ name child rel,
          (name, child) ∈ entries
          ∧ filepathJoin p name ++ rel
            ∈ (walkEntries (traced visit) p entries (st1, seen1)).1.2
          ∧ File ∈ entered (filepathJoin p name) child rel
          ∧ filepathDir (filepathJoin p name ++ rel) = d
          ∧ filepathBase (filepathJoin p name ++ rel) ∈ names) as Hloop.
    { induction IH as [|[name child] rest Hchild _ IHrest]; intros st1 seen1.
      { by left. }
      cbn [snd] in Hchild. simpl.
      pose proof (Hchild (filepathJoin p name) st1 seen1) as Hhere.
      destruct (walk (traced visit) (filepathJoin p name) child (st1, seen1))
        as [[st2 seen2] r2] eqn:Hw.
      cbn [fst snd] in Hhere.
      assert (∀ final : list path, (∀ q, q ∈ seen2 → q ∈ final) →
              flagAt st2 d = true →
              flagAt st1 d = true
              ∨ ∃ name' child' rel,
                  (name', child') ∈ (name, child) :: rest
                  ∧ filepathJoin p name' ++ rel ∈ final
                  ∧ File ∈ entered (filepathJoin p name') child' rel
                  ∧ filepathDir (filepathJoin p name' ++ rel) = d
                  ∧ filepathBase (filepathJoin p name' ++ rel) ∈ names) as Hfirst.
      { intros final Hkeep [?|(rel & Hq & Hrest)]%Hhere; [by left|right].
        exists name, child, rel. split; [by left|]. split; [by apply Hkeep|done]. }
      assert (flagAt (walkEntries (traced visit) p rest (st2, seen2)).1.1 d = true →
              flagAt st1 d = true
              ∨ ∃ name' child' rel,
                  (name', child') ∈ (name, child) :: rest
                  ∧ filepathJoin p name' ++ rel
                    ∈ (walkEntries (traced visit) p rest (st2, seen2)).1.2
                  ∧ File ∈ entered (filepathJoin p name') child' rel
                  ∧ filepathDir (filepathJoin p name' ++ rel) = d
                  ∧ filepathBase (filepathJoin p name' ++ rel) ∈ names) as Hgo.
      { intros [Hd|(name' & child' & rel & Hin & Hrest)]%IHrest.
        - apply Hfirst; [|done]. intros q Hq. by apply traced_entries_keep.
        - right. exists name', child', rel. split; [by right|done]. }
      destruct r2 as [| |e2]; [done| |by apply Hfirst].
      destruct (returnsSkip child); [by apply Hfirst|done]. }
    intros [?|(name & child & rel & Hin & Hq & Hfile & Hdir & Hname)]%Hloop;
      [by left|right].
    exists (name :: rel). unfold filepathJoin in *. rewrite <- app_assoc in Hq, Hdir, Hname.
    split; [done|]. split; [|done].
    apply entered_cons. by exists entries, child.
Qed.

Hypothesis flag_empty : ∀ d, flagAt ∅ d = false.

Lemma findConfigs_visited (root : path) (tree : node) (d : path) :
  flagAt (findConfigs root tree).1 d = true → visitedFile names root tree d.
Proof.
  unfold findConfigs, visitedFile, visitedPaths, Walk.
  pose proof (traced_walk_flags tree root ∅ [] d) as Hflags.
  destruct (walk_traced visit tree root ∅ []) as [Hst _].
  destruct (walk (traced visit) root tree (∅, [])) as [[st seen] r].
  destruct (walk visit root tree ∅) as [st' r']. simpl in *. subst st'.
  intros [Hd|?]%Hflags; [|done]. by rewrite flag_empty in Hd.
Qed.
End VisitedFlags.

(** X3: every record of the result of a scan, also of a scan that stopped
    on an error, stands for files that the callback was called on: its
    linter flag is only set when one of the paths visited is a file of
    that directory with a name of the ESLint table, and its formatter flag
    likewise for the Prettier table. *)
Theorem scan_result_sound (root : path) (tree : node) (k : path) (loc : configLocation) :
  (findConfigs root tree).1 !! k = Some loc →
  (hasEslint loc = true → visitedFile eslintConfigFiles root tree k)
  ∧ (hasPrettier loc = true → visitedFile prettierConfigFiles root tree k).
Proof.
  intros Hloc. split; intros Hflag.
  - apply (findConfigs_visited _ eslintAt eslintAt_file eslintAt_empty).
    unfold eslintAt. by rewrite Hloc.
  - apply (findConfigs_visited _ prettierAt prettierAt_file prettierAt_empty).
    unfold prettierAt. by rewrite Hloc.
Qed.

Lemma scan_result_sound_witness :
  (findConfigs ["proj"] brokenTree).2 = Some (GoError false "input/output error")
  ∧ visitedFile eslintConfigFiles ["proj"] brokenTree ["proj"; "a"].
Proof.
  split; [reflexivity|].
  apply (proj1 (scan_result_sound ["proj"] brokenTree ["proj"; "a"]
                  (ConfigLocation ["proj"; "a"] true true) eq_refl)).
  reflexivity.
Defined.

(** In [brokenTree] the file under [z] is reached by no call: the scan has
    stopped before, and [z] has no record. *)
Example broken_scan_skips_z :
  ¬ visitedFile eslintConfigFiles ["proj"] brokenTree ["proj"; "z"]
  ∧ (findConfigs ["proj"] brokenTree).1 !! ["proj"; "z"] = None.
Proof.
  split; [|reflexivity].
  intros (rel & Hin & _ & Hdir & _). revert Hin Hdir.
  replace (visitedPaths ["proj"] brokenTree)
    with [ ["proj"]; ["proj"; "a"]; ["proj"; "a"; ".prettierrc"];
           ["proj"; "a"; "eslint.config.js"]; ["proj"; "locked"] ]
    by (vm_compute; reflexivity).
  intros Hin Hdir. decompose_list_elem_of;
    match goal with Heq : _ ++ rel = _ |- _ => rewrite Heq in Hdir end;
    discriminate.
Qed.

(** * The patcher runs after the migrations *)

Lemma execsPatched_tail (e : event) (log : list event) :
  execsPatched (e :: log) → execsPatched log.
Proof. destruct e; simpl; tauto. Qed.

Lemma execsPatched_app (log1 log2 : list event) :
  execsPatched log1 → execsPatched log2 → execsPatched (log1 ++ log2).
Proof.
  intros H1 H2. induction log1 as [|e rest IH]; [done|].
  destruct e; simpl in *; try (by apply IH).
  destruct H1 as [Hin Hrest]. split; [|by apply IH].
  apply elem_of_app. by left.
Qed.

Lemma execsPatched_prints (log : list event) :
  (∀ e, e ∈ log → ∃ m, e = EPrint m) → execsPatched log.
Proof.
  induction log as [|e rest IH]; intros Hall; [done|].
  destruct (Hall e) as [m ->]; [by left|]. simpl. apply IH.
  intros e' He'. apply Hall. by right.
Qed.

Lemma execsPatched_split (pre post : list event) (args : list string) (cwd : path) :
  execsPatched (pre ++ EExec args cwd :: post) →
  EReadFile (filepathJoin cwd "biome.json") ∈ post.
Proof.
  induction pre as [|e pre IH]; simpl.
  - by intros [Hin _].
  - intros Hall. apply IH. by apply (execsPatched_tail e).
Qed.

Lemma untilRead_fromRead (log : list event) : untilRead log ++ fromRead log = log.
Proof. induction log as [|[] rest IH]; simpl; by rewrite ?IH. Qed.

Section PatchAfterMigrations.
Context {W : Type} `{Host W}.

(** The migration of a location either gives up because the skeleton
    could not be written, or runs the migrations that the flags call for
    and then, from the state they leave, the patcher. *)
Lemma migrateLocation_steps (d : path) (loc : configLocation) (w w' : W) log r :
  migrateLocation d loc w = (w', log, r) →
  (∃ createErr,
     log = [ EPrint (MsgMigrating d); EStat (filepathJoin d "biome.json");
             EWriteFile (filepathJoin d "biome.json") minimalBiomeConfig;
             EPrint (MsgCreateError createErr) ]
     ∧ r = Returned tt)
  ∨ (∃ after,
       execsOf (untilRead log) = migrationsOf d loc
       ∧ fromRead log
         = (patchBiomeConfig (filepathJoin d "biome.json")
              (afterMigrations d loc w)).1.2 ++ after
       ∧ w' = (patchBiomeConfig (filepathJoin d "biome.json")
                 (afterMigrations d loc w)).1.1
       ∧ execsOf after = []).
Proof.
  unfold migrationsOf.
  migrate_cases d loc w; intros [= <- <- <-];
    first
      [ by (left; eexists)
      | right; eexists; unfold afterMigrations, afterCreation; fold biome;
        rewrite ?Hstat, ?Hcreate, ?Heslint, ?Hprettier; cbn [fst];
        repeat match goal with
               | Hc : cmdRun _ _ _ = _ |- _ => rewrite Hc; cbn [fst]
               end;
        match goal with
        | Hp : patchBiomeConfig _ _ = _ |- _ => rewrite Hp
        end;
        simpl; repeat split; reflexivity ].
Qed.

Lemma migrateLocation_execsPatched (d : path) (loc : configLocation) (w w' : W) log r :
  migrateLocation d loc w = (w', log, r) → execsPatched log.
Proof.
  migrate_cases d loc w; intros [= <- <- <-]; simpl; repeat split;
    repeat first [ apply list_elem_of_here | apply list_elem_of_further ].
Qed.

Lemma processLocation_execsPatched (dryRun : bool) (entry : path * configLocation)
    (w w' : W) log r :
  processLocation dryRun entry w = (w', log, r) → execsPatched log.
Proof.
  destruct entry as [d loc]. destruct dryRun.
  - rewrite processLocation_dry. intros [= <- <- <-].
    apply execsPatched_prints. apply dryReport_prints.
  - simpl. apply migrateLocation_execsPatched.
Qed.

Lemma forEach_execsPatched {A : Type} (items : list A) (body : A → Run unit) :
  (∀ x (w w' : W) log r, body x w = (w', log, r) → execsPatched log) →
  ∀ (w w' : W) log r, forEach items body w = (w', log, r) → execsPatched log.
Proof.
  intros Hbody. induction items as [|x rest IH]; intros w w' log r.
  - simpl. run_unfold. by intros [= <- <- <-].
  - simpl. run_unfold.
    destruct (body x w) as [[w1 log1] [[]|reason]] eqn:Hx.
    + destruct (forEach rest body w1) as [[w2 log2] r2] eqn:Hrest.
      intros [= <- <- <-]. apply execsPatched_app; [by eapply Hbody|by eapply IH].
    + intros [= <- <- <-]. by eapply Hbody.
Qed.

(** A loop that returns has run the body of each of its items to the
    end. *)
Lemma forEach_returned {A : Type} (items : list A) (body : A → Run unit)
    (w w' : W) log (x : A) :
  forEach items body w = (w', log, Returned tt) → x ∈ items →
  ∃ w0 w1 logx before after,
    body x w0 = (w1, logx, Returned tt) ∧ log = before ++ logx ++ after.
Proof.
  revert w log. induction items as [|y rest IH]; intros w log Hrun Hin.
  { by apply elem_of_nil in Hin. }
  revert Hrun. simpl. run_unfold.
  destruct (body y w) as [[w1 log1] [[]|reason]] eqn:Hy; [|done].
  destruct (forEach rest body w1) as [[w2 log2] r2] eqn:Hrest.
  intros [= <- <- ->]. apply elem_of_cons in Hin as [->|Hin].
  - exists w, w1, log1, [], log2. done.
  - destruct (IH _ _ Hrest Hin) as (w0 & w3 & logx & before & after & Hx & ->).
    exists w0, w3, logx, (log1 ++ before), after. split; [done|].
    by rewrite <- !app_assoc.
Qed.

Lemma main_execsPatched (inputDir : string) (dryRun : bool) (w w' : W) log r :
  main inputDir dryRun w = (w', log, r) → execsPatched log.
Proof.
  destruct (String.eqb_spec inputDir "") as [->|Hinput].
  { unfold main. simpl. run_unfold. by intros [= <- <- <-]. }
  destruct (filepathAbs inputDir w) as [err|root] eqn:Habs.
  { unfold main. destruct (String.eqb_spec inputDir "") as [|_]; [done|].
    run_unfold. rewrite Habs. by intros [= <- <- <-]. }
  destruct (findConfigs root (hostTree root w)) as [locations [err|]] eqn:Hscan.
  { unfold main. destruct (String.eqb_spec inputDir "") as [|_]; [done|].
    run_unfold. rewrite Habs, Hscan. by intros [= <- <- <-]. }
  destruct (decide (locations = ∅)) as [->|Hne].
  { unfold main. destruct (String.eqb_spec inputDir "") as [|_]; [done|].
    run_unfold. rewrite Habs, Hscan. by intros [= <- <- <-]. }
  rewrite (main_run inputDir dryRun w root locations) by done.
  destruct (forEach (mapRange 1 locations) (processLocation dryRun) w)
    as [[w2 log2] r2] eqn:Hloop.
  intros [= <- <- <-]. simpl.
  apply forEach_execsPatched in Hloop;
    [|intros; by eapply processLocation_execsPatched].
  apply execsPatched_app; [|apply execsPatched_app; [done|by destruct r2]].
  apply execsPatched_prints. intros e He.
  apply list_elem_of_In, in_concat in He as (l & Hl & He).
  apply in_map_iff in Hl as (entry & <- & _).
  apply list_elem_of_In, list_elem_of_singleton in He as ->. by eexists.
Qed.

Lemma main_migrates_every_location (inputDir : string) (w w' : W)
    (log : list event) (code : Z)
    (root d : path) (locations : gmap path configLocation) (loc : configLocation) :
  inputDir ≠ "" → filepathAbs inputDir w = inr root →
  findConfigs root (hostTree root w) = (locations, None) →
  main inputDir false w = (w', log, Returned code) →
  locations !! d = Some loc →
  ∃ w0 w1 logd before after,
    processLocation false (d, loc) w0 = (w1, logd, Returned tt)
    ∧ log = before ++ logd ++ after.
Proof.
  intros Hinput Habs Hscan Hrun Hd.
  assert (locations ≠ ∅) as Hne by (intros ->; by rewrite lookup_empty in Hd).
  rewrite (main_run inputDir false w root locations) in Hrun by done.
  destruct (forEach (mapRange 1 locations) (processLocation false) w)
    as [[w2 log2] [[]|reason]] eqn:Hloop; [|done].
  injection Hrun as <- <- <-.
  destruct (forEach_returned _ _ _ _ _ (d, loc) Hloop)
    as (w0 & w1 & logd & before & after & Hbody & ->).
  { by apply mapRange_lookup. }
  exists w0, w1, logd,
    (EWalk root :: EPrint (MsgFound (size locations))
       :: concat (map listingOf (mapRange 0 locations)) ++ before),
    (after ++ [EPrint MsgDone]).
  split; [done|]. simpl. by rewrite <- !app_assoc.
Qed.
End PatchAfterMigrations.


